(** * Text-to-text example records: writer and decoder

    A shallow embedding of [state_tracking/utils/text_to_text_utils.py]:
    the [TextToTextExample] data class, [write_data] and [decode_fn],
    together with the library calls they are built from (UTF-8 encoding of
    [str], the [tf.train.Example] message, [tf.io.parse_single_example],
    [os.path], [random.shuffle], [tf.io.gfile] and the record writer). *)

From stdpp Require Import gmap strings list fin_maps.
From Stdlib Require Import ZArith Lia Ascii.

Local Open Scope Z_scope.

(** ** Exceptions and fallible computations *)

Inductive exn :=
  | TypeError
  | UnicodeEncodeError
  | ValueError
  | InvalidArgumentError
  | NotFoundError
  | FailedPreconditionError.

Inductive result (A : Type) :=
  | Ok (a : A)
  | Raise (e : exn).
Arguments Ok {A} a.
Arguments Raise {A} e.

Global Instance result_ret : MRet result := λ A a, Ok a.
Global Instance result_bind : MBind result := λ A B f r,
  match r with
  | Ok a => f a
  | Raise e => Raise e
  end.
Global Instance result_fmap : FMap result := λ A B f r,
  match r with
  | Ok a => Ok (f a)
  | Raise e => Raise e
  end.

(** ** Python [str] and [bytes]

    A [str] is its sequence of code points, a [bytes] object its sequence of
    octets. *)

Abbreviation pystr := (list Z).
Abbreviation pybytes := (list Z).

(** Code points that have a UTF-8 encoding: everything in [0, 0x10FFFF]
    except the surrogates. A Python [str] may hold lone surrogates, and
    [encode] raises on them. *)
Definition utf8_encodable (c : Z) : bool :=
  ((0 <=? c) && (c <? 0xD800)) || ((0xE000 <=? c) && (c <=? 0x10FFFF)).

Definition utf8_encode_char (c : Z) : result pybytes :=
  if negb (utf8_encodable c) then Raise UnicodeEncodeError
  else if c <? 0x80 then Ok [c]
  else if c <? 0x800 then Ok [0xC0 + c / 64; 0x80 + c mod 64]
  else if c <? 0x10000 then
    Ok [0xE0 + c / 4096; 0x80 + (c / 64) mod 64; 0x80 + c mod 64]
  else
    Ok [0xF0 + c / 262144; 0x80 + (c / 4096) mod 64;
        0x80 + (c / 64) mod 64; 0x80 + c mod 64].

(** [s.encode('utf-8')] *)
Fixpoint encode_utf8 (s : pystr) : result pybytes :=
  match s with
  | [] => Ok []
  | c :: s' =>
      b ← utf8_encode_char c;
      bs ← encode_utf8 s';
      Ok (b ++ bs)
  end.

Definition is_continuation (b : Z) : bool := (0x80 <=? b) && (b <? 0xC0).

(** [b.decode('utf-8')]: the strict decoder (no overlong forms, no
    surrogates, nothing above 0x10FFFF); [None] stands for
    [UnicodeDecodeError]. *)
Fixpoint decode_utf8 (bs : pybytes) : option pystr :=
  match bs with
  | [] => Some []
  | b0 :: r0 =>
      if (0 <=? b0) && (b0 <? 0x80) then cons b0 <$> decode_utf8 r0
      else if (0xC2 <=? b0) && (b0 <? 0xE0) then
        match r0 with
        | b1 :: r1 =>
            if is_continuation b1
            then cons ((b0 - 0xC0) * 64 + (b1 - 0x80)) <$> decode_utf8 r1
            else None
        | _ => None
        end
      else if (0xE0 <=? b0) && (b0 <? 0xF0) then
        match r0 with
        | b1 :: b2 :: r2 =>
            let c := (b0 - 0xE0) * 4096 + (b1 - 0x80) * 64 + (b2 - 0x80) in
            if is_continuation b1 && is_continuation b2
               && (0x800 <=? c) && utf8_encodable c
            then cons c <$> decode_utf8 r2
            else None
        | _ => None
        end
      else if (0xF0 <=? b0) && (b0 <? 0xF5) then
        match r0 with
        | b1 :: b2 :: b3 :: r3 =>
            let c := (b0 - 0xF0) * 262144 + (b1 - 0x80) * 4096
                     + (b2 - 0x80) * 64 + (b3 - 0x80) in
            if is_continuation b1 && is_continuation b2 && is_continuation b3
               && (0x10000 <=? c) && utf8_encodable c
            then cons c <$> decode_utf8 r3
            else None
        | _ => None
        end
      else None
  end.

(** ** The data class *)

Record TextToTextExample := {
  src : pystr;
  tgt : pystr;
  dialog_id : pystr;
  turn : Z;
  frame : Z
}.

(** The generated [__init__(self, src, tgt, dialog_id, turn, frame=0)].
    A call is given by the value bound to each parameter, [None] where the
    call supplies none. A required parameter without a value is a
    [TypeError]; [frame] falls back to its default. *)
Definition TextToTextExample_init
    (a_src a_tgt a_dialog_id : option pystr) (a_turn a_frame : option Z)
    : result TextToTextExample :=
  match a_src, a_tgt, a_dialog_id, a_turn with
  | Some s, Some t, Some d, Some n =>
      Ok {| src := s; tgt := t; dialog_id := d; turn := n;
            frame := default 0 a_frame |}
  | _, _, _, _ => Raise TypeError
  end.

(** ** The [tf.train.Example] message

    A [Feature] holds at most one of the three value lists ([kind] is a
    oneof); floats are kept as their IEEE single-precision bit patterns.
    An [Example] is its [features.feature] map. *)

Inductive Feature :=
  | Feature_unset
  | Feature_bytes_list (value : list pybytes)
  | Feature_float_list (value : list Z)
  | Feature_int64_list (value : list Z).

Abbreviation Example := (gmap string Feature).

(** A serialized record, as the sequence of map entries it carries. The
    order in which a map field is written is not fixed by the library, and
    a record coming from elsewhere may repeat a key. *)
Abbreviation record := (list (string * Feature)).

Definition SerializeToString (ex : Example) : record := map_to_list ex.

(** Reading a map field back: of two entries under one key the later one
    wins. *)
Definition ParseFromString (r : record) : Example := list_to_map (reverse r).

Definition in_int64 (z : Z) : bool := (- 2 ^ 63 <=? z) && (z <? 2 ^ 63).

(** [_bytes_feature]: [Feature(bytes_list=BytesList(value=[value]))] *)
Definition _bytes_feature (value : pybytes) : Feature :=
  Feature_bytes_list [value].

(** [_int64_feature]: [Feature(int64_list=Int64List(value=[value]))]; the
    message constructor rejects an integer outside the signed 64-bit
    range. *)
Definition _int64_feature (value : Z) : result Feature :=
  if in_int64 value then Ok (Feature_int64_list [value]) else Raise ValueError.

(** The message built in the loop of [write_data]; the entries of the dict
    display are evaluated in order. *)
Definition tf_example (example : TextToTextExample) : result Example :=
  i ← encode_utf8 (src example);
  v ← encode_utf8 (tgt example);
  d ← encode_utf8 (dialog_id example);
  t ← _int64_feature (turn example);
  Ok (<["input" := _bytes_feature i]>
      (<["value" := _bytes_feature v]>
      (<["dialog_id" := _bytes_feature d]>
      (<["turn" := t]> ∅)))).

(** [tf_example.SerializeToString()] for that message: the record that the
    loop hands to the writer. *)
Definition serialize_example (example : TextToTextExample) : result record :=
  SerializeToString <$> tf_example example.

(** ** [tf.io.parse_single_example] *)

Inductive DType := DT_STRING | DT_INT64 | DT_FLOAT.

Global Instance DType_eq_dec : EqDecision DType.
Proof. solve_decision. Defined.

Inductive FeatureSpec :=
  | VarLenFeature (dtype : DType)
  | FixedLenFeature (shape : list nat) (dtype : DType).

Inductive TensorValues :=
  | StringValues (l : list pybytes)
  | Int64Values (l : list Z)
  | FloatValues (l : list Z).

Inductive Tensor :=
  | DenseTensor (shape : list nat) (vals : TensorValues)
  | SparseTensor (indices : list (list Z)) (vals : TensorValues)
                 (dense_shape : list Z).

Definition feature_values (f : Feature) : option TensorValues :=
  match f with
  | Feature_unset => None
  | Feature_bytes_list l => Some (StringValues l)
  | Feature_float_list l => Some (FloatValues l)
  | Feature_int64_list l => Some (Int64Values l)
  end.

Definition values_dtype (v : TensorValues) : DType :=
  match v with
  | StringValues _ => DT_STRING
  | Int64Values _ => DT_INT64
  | FloatValues _ => DT_FLOAT
  end.

Definition values_count (v : TensorValues) : nat :=
  match v with
  | StringValues l => length l
  | Int64Values l => length l
  | FloatValues l => length l
  end.

Definition empty_values (dt : DType) : TensorValues :=
  match dt with
  | DT_STRING => StringValues []
  | DT_INT64 => Int64Values []
  | DT_FLOAT => FloatValues []
  end.

(** The rank-1 sparse tensor of a variable-length feature: indices
    [[0], ..., [n-1]] and dense shape [[n]]. *)
Definition sparse_of (v : TensorValues) : Tensor :=
  let n := values_count v in
  SparseTensor ((λ i : nat, [Z.of_nat i]) <$> seq 0 n) v [Z.of_nat n].

Definition num_elements (shape : list nat) : nat := foldr Nat.mul 1%nat shape.

(** One configured feature against what the example holds under its key.
    A key that is absent, or whose feature has no kind set, counts as
    missing: a variable-length feature is then empty, a fixed-length one
    (no default is configured) is an error. A kind of another type is an
    error for both, and so is a fixed-length feature whose number of values
    is not that of its shape. *)
Definition parse_feature (spec : FeatureSpec) (f : option Feature)
    : result Tensor :=
  match spec, f ≫= feature_values with
  | VarLenFeature dt, None => Ok (sparse_of (empty_values dt))
  | VarLenFeature dt, Some v =>
      if decide (values_dtype v = dt) then Ok (sparse_of v)
      else Raise InvalidArgumentError
  | FixedLenFeature _ _, None => Raise InvalidArgumentError
  | FixedLenFeature shape dt, Some v =>
      if decide (values_dtype v = dt) then
        if decide (values_count v = num_elements shape)
        then Ok (DenseTensor shape v)
        else Raise InvalidArgumentError
      else Raise InvalidArgumentError
  end.

Fixpoint parse_features (ex : Example) (features : list (string * FeatureSpec))
    : result (gmap string Tensor) :=
  match features with
  | [] => Ok ∅
  | (key, spec) :: rest =>
      t ← parse_feature spec (ex !! key);
      out ← parse_features ex rest;
      Ok (<[key := t]> out)
  end.

Definition parse_single_example
    (serialized : record) (features : list (string * FeatureSpec))
    : result (gmap string Tensor) :=
  parse_features (ParseFromString serialized) features.

Definition decode_schema : list (string * FeatureSpec) :=
  [ ("input", VarLenFeature DT_STRING);
    ("value", VarLenFeature DT_STRING);
    ("dialog_id", VarLenFeature DT_STRING);
    ("turn", FixedLenFeature [] DT_INT64) ].

Definition decode_fn (record_bytes : record) : result (gmap string Tensor) :=
  parse_single_example record_bytes decode_schema.

(** What a reader gets back for an example: the three texts as one-element
    string tensors holding their UTF-8 bytes, and the turn as a scalar. *)
Definition decoded_text (b : pybytes) : Tensor :=
  SparseTensor [[0]] (StringValues [b]) [1].

Definition decoded_turn (n : Z) : Tensor := DenseTensor [] (Int64Values [n]).

Definition decoded (i v d : pybytes) (n : Z) : gmap string Tensor :=
  <["input" := decoded_text i]>
  (<["value" := decoded_text v]>
  (<["dialog_id" := decoded_text d]>
  (<["turn" := decoded_turn n]> ∅))).

(** ** [os.path] (POSIX flavour) *)

Definition is_sep (c : ascii) : bool := Ascii.eqb c "/".

(** [(p[:i], p[i:])] for [i = p.rfind('/') + 1] *)
Fixpoint rsplit_sep (p : string) : string * string :=
  match p with
  | EmptyString => (EmptyString, EmptyString)
  | String c r =>
      let '(h, t) := rsplit_sep r in
      match h with
      | EmptyString =>
          if is_sep c then (String c EmptyString, t)
          else (EmptyString, String c t)
      | _ => (String c h, t)
      end
  end.

Fixpoint all_sep (s : string) : bool :=
  match s with
  | EmptyString => true
  | String c r => is_sep c && all_sep r
  end.

(** [s.rstrip('/')] *)
Fixpoint rstrip_sep (s : string) : string :=
  match s with
  | EmptyString => EmptyString
  | String c r =>
      match rstrip_sep r with
      | EmptyString => if is_sep c then EmptyString else String c EmptyString
      | r' => String c r'
      end
  end.

Definition is_empty_string (s : string) : bool :=
  match s with EmptyString => true | _ => false end.

(** [os.path.dirname]: the head up to the last separator, trailing
    separators stripped unless the head consists of separators only. *)
Definition dirname (p : string) : string :=
  let head := (rsplit_sep p).1 in
  if negb (is_empty_string head) && negb (all_sep head)
  then rstrip_sep head else head.

(** [os.path.basename] *)
Definition basename (p : string) : string := (rsplit_sep p).2.

Fixpoint has_sep (p : string) : bool :=
  match p with
  | EmptyString => false
  | String c r => is_sep c || has_sep r
  end.

(** ** The state the writer acts on *)

Inductive LogArg := LogStr (s : string) | LogInt (n : Z).

(** A call [tf.logging.info(msg, *args)]. *)
Record LogRecord := { log_msg : string; log_args : list LogArg }.

(** The file-system calls of the writer, as [tf.io.gfile] dispatches them to
    a back end: [tf.io.gfile.makedirs] and the three steps of a record
    writer (construction, [write], and the [close] of leaving the [with]
    block). Each returns normally or raises, and leaves a file system. *)
Class GFile (FS : Type) := {
  gfile_makedirs : string → FS → result () * FS;
  record_writer_open : string → FS → result () * FS;
  record_writer_write : string → record → FS → result () * FS;
  record_writer_close : string → FS → result () * FS
}.

(** The world: the file system, the heap holding the caller's list objects
    (a list is passed by reference, as its address; an address without a
    list stands for an argument that is no sequence), the random generator
    as the stream of its coming draws, and the log. *)
Record World (FS : Type) := {
  w_fs : FS;
  w_heap : gmap nat (list TextToTextExample);
  w_rng : nat → nat;
  w_log : list LogRecord
}.
Arguments w_fs {FS} _.
Arguments w_heap {FS} _.
Arguments w_rng {FS} _.
Arguments w_log {FS} _.

Definition set_fs {FS} (f : FS) (w : World FS) : World FS :=
  {| w_fs := f; w_heap := w_heap w; w_rng := w_rng w; w_log := w_log w |}.
Definition set_heap {FS} (h : gmap nat (list TextToTextExample))
    (w : World FS) : World FS :=
  {| w_fs := w_fs w; w_heap := h; w_rng := w_rng w; w_log := w_log w |}.
Definition set_rng {FS} (g : nat → nat) (w : World FS) : World FS :=
  {| w_fs := w_fs w; w_heap := w_heap w; w_rng := g; w_log := w_log w |}.
Definition set_log {FS} (l : list LogRecord) (w : World FS) : World FS :=
  {| w_fs := w_fs w; w_heap := w_heap w; w_rng := w_rng w; w_log := l |}.

(** Statements: a result or an exception, and the world left behind in
    either case. *)
Definition M (FS A : Type) : Type := World FS → result A * World FS.

Global Instance M_ret {FS} : MRet (M FS) := λ A a w, (Ok a, w).
Global Instance M_bind {FS} : MBind (M FS) := λ A B f m w,
  match m w with
  | (Ok a, w') => f a w'
  | (Raise e, w') => (Raise e, w')
  end.

Definition lift_result {FS A} (r : result A) : M FS A := λ w, (r, w).

Definition lift_fs {FS} (op : FS → result () * FS) : M FS () := λ w,
  let '(r, f) := op (w_fs w) in (r, set_fs f w).

(** ** [random.shuffle] *)

(** [_randbelow(n)]: the next draw, reduced to [0 .. n-1]. *)
Definition randbelow (n : nat) (g : nat → nat) : nat * (nat → nat) :=
  ((g 0 `mod` n)%nat, λ i, g (S i)).

(** [x[i], x[j] = x[j], x[i]] *)
Definition swap {A} (x : list A) (i j : nat) : list A :=
  match x !! i, x !! j with
  | Some a, Some b => <[j := a]> (<[i := b]> x)
  | _, _ => x
  end.

(** The loop [for i in reversed(range(1, len(x)))] from index [i] down. *)
Fixpoint shuffle_from {A} (i : nat) (x : list A) (g : nat → nat)
    : list A * (nat → nat) :=
  match i with
  | O => (x, g)
  | S i' =>
      let '(j, g') := randbelow (S i) g in
      shuffle_from i' (swap x i j) g'
  end.

Definition shuffle {A} (x : list A) (g : nat → nat) : list A * (nat → nat) :=
  shuffle_from (length x - 1) x g.

(** [random.shuffle(examples)] on the list object at [examples]: the
    object itself is rearranged. *)
Definition random_shuffle {FS} (examples : nat) : M FS () := λ w,
  match w_heap w !! examples with
  | Some x =>
      let '(x', g') := shuffle x (w_rng w) in
      (Ok (), set_rng g' (set_heap (<[examples := x']> (w_heap w)) w))
  | None => (Raise TypeError, w)
  end.

Definition read_list {FS} (examples : nat) : M FS (list TextToTextExample) :=
  λ w, match w_heap w !! examples with
       | Some x => (Ok x, w)
       | None => (Raise TypeError, w)
       end.

(** [len(examples)] *)
Definition len {FS} (examples : nat) : M FS nat :=
  λ w, match w_heap w !! examples with
       | Some x => (Ok (length x), w)
       | None => (Raise TypeError, w)
       end.

Definition logging_info {FS} (msg : string) (args : list LogArg) : M FS () :=
  λ w, (Ok (), set_log (w_log w ++ [{| log_msg := msg; log_args := args |}]) w).

(** ** [write_data] *)

Section write_data.
Context {FS : Type} `{!GFile FS}.

(** [with tf.io.TFRecordWriter(path) as out_file: body]: the writer is
    closed on the way out, whether the body returns or raises. *)
Definition with_TFRecordWriter {A} (path : string) (body : string → M FS A)
    : M FS A := λ w,
  match lift_fs (record_writer_open path) w with
  | (Raise e, w1) => (Raise e, w1)
  | (Ok _, w1) =>
      let '(r, w2) := body path w1 in
      match lift_fs (record_writer_close path) w2 with
      | (Raise e, w3) => (Raise e, w3)
      | (Ok _, w3) => (r, w3)
      end
  end.

Definition write_example (out_file : string) (example : TextToTextExample)
    : M FS () :=
  r ← lift_result (serialize_example example);
  lift_fs (record_writer_write out_file r).

Fixpoint write_examples (out_file : string) (xs : list TextToTextExample)
    : M FS () :=
  match xs with
  | [] => mret ()
  | example :: xs' =>
      write_example out_file example;; write_examples out_file xs'
  end.

(** The statements after the directory has been made. *)
Definition write_body (examples : nat) (output_path : string)
    (shuffle : bool) : M FS () :=
  (if shuffle then random_shuffle examples else mret ());;
  with_TFRecordWriter output_path (λ out_file,
    xs ← read_list examples;
    write_examples out_file xs;;
    n ← len examples;
    logging_info "Wrote %s with %d examples"
      [LogStr (basename output_path); LogInt (Z.of_nat n)]).

Definition write_data (examples : nat) (output_path : string)
    (shuffle : bool) : M FS () :=
  lift_fs (gfile_makedirs (dirname output_path));;
  write_body examples output_path shuffle.
End write_data.

(** ** A local file system

    Directories and record files in one tree, addressed by the list of the
    components of a path. Paths are resolved from a single root: empty
    components and [.] are dropped, so [""] and ["/"] both name the root,
    which always exists. Nothing else about a path is interpreted, and
    there are no permissions. *)

Inductive node :=
  | Dir
  | File (records : list record).

Abbreviation LocalFS := (gmap (list string) node).

(** [p.split('/')] *)
Fixpoint split_sep (p : string) : list string :=
  match p with
  | EmptyString => [EmptyString]
  | String c r =>
      if is_sep c then EmptyString :: split_sep r
      else match split_sep r with
           | [] => [String c EmptyString]
           | h :: t => String c h :: t
           end
  end.

Definition is_name (c : string) : bool :=
  negb (String.eqb c "") && negb (String.eqb c ".").

Definition path_components (p : string) : list string :=
  List.filter is_name (split_sep p).

Definition is_dir (fs : LocalFS) (k : list string) : bool :=
  match k with
  | [] => true
  | _ => match fs !! k with Some Dir => true | _ => false end
  end.

(** Creating the directories along [rest] below [pre], outermost first, as
    [mkdir -p] does: what is there already is kept, a file in the way is an
    error. For a path without components there is nothing to create. *)
Fixpoint mkdirs (pre rest : list string) (fs : LocalFS) : result () * LocalFS :=
  match rest with
  | [] => (Ok (), fs)
  | c :: rest' =>
      let k := pre ++ [c] in
      match fs !! k with
      | Some (File _) => (Raise FailedPreconditionError, fs)
      | Some Dir => mkdirs k rest' fs
      | None => mkdirs k rest' (<[k := Dir]> fs)
      end
  end.

Definition local_makedirs (path : string) (fs : LocalFS) : result () * LocalFS :=
  mkdirs [] (path_components path) fs.

(** Opening a file for writing creates it or empties it; the path must not
    name a directory and its parent must be one. *)
Definition local_open (path : string) (fs : LocalFS) : result () * LocalFS :=
  let k := path_components path in
  if is_dir fs k then (Raise FailedPreconditionError, fs)
  else if is_dir fs (removelast k) then (Ok (), <[k := File []]> fs)
  else (Raise NotFoundError, fs).

Definition local_write (path : string) (r : record) (fs : LocalFS)
    : result () * LocalFS :=
  let k := path_components path in
  match fs !! k with
  | Some (File rs) => (Ok (), <[k := File (rs ++ [r])]> fs)
  | _ => (Raise FailedPreconditionError, fs)
  end.

Definition local_close (path : string) (fs : LocalFS) : result () * LocalFS :=
  (Ok (), fs).

Global Instance LocalFS_GFile : GFile LocalFS := {|
  gfile_makedirs := local_makedirs;
  record_writer_open := local_open;
  record_writer_write := local_write;
  record_writer_close := local_close
|}.

(** A back end that differs from the local one in one point: it refuses
    the empty path, as [os.makedirs] does. *)
Definition strict_makedirs (path : string) (fs : LocalFS) : result () * LocalFS :=
  if is_empty_string path then (Raise NotFoundError, fs)
  else local_makedirs path fs.

Definition StrictFS_GFile : GFile LocalFS := {|
  gfile_makedirs := strict_makedirs;
  record_writer_open := local_open;
  record_writer_write := local_write;
  record_writer_close := local_close
|}.

(** Reading a record file from its start to its end. *)
Definition read_records (fs : LocalFS) (path : string) : option (list record) :=
  match fs !! path_components path with
  | Some (File rs) => Some rs
  | _ => None
  end.

(** Decoding the records one after the other. *)
Fixpoint decode_all (rs : list record) : result (list (gmap string Tensor)) :=
  match rs with
  | [] => Ok []
  | r :: rs' =>
      d ← decode_fn r;
      ds ← decode_all rs';
      Ok (d :: ds)
  end.

(** What decoding gives for an example that can be written. *)
Definition decoded_example (e : TextToTextExample)
    : result (gmap string Tensor) :=
  i ← encode_utf8 (src e);
  v ← encode_utf8 (tgt e);
  d ← encode_utf8 (dialog_id e);
  Ok (decoded i v d (turn e)).

Definition encodable (s : pystr) : bool := forallb utf8_encodable s.

(** The examples [write_data] can serialize: texts without lone surrogates
    and a turn that fits 64 bits. *)
Definition writable (e : TextToTextExample) : bool :=
  encodable (src e) && encodable (tgt e) && encodable (dialog_id e)
  && in_int64 (turn e).

(** The message of an example whose texts encode to [i], [v] and [d]. *)
Definition example_message (i v d : pybytes) (n : Z) : Example :=
  <["input" := Feature_bytes_list [i]]>
  (<["value" := Feature_bytes_list [v]]>
  (<["dialog_id" := Feature_bytes_list [d]]>
  (<["turn" := Feature_int64_list [n]]> ∅))).

(** The records the loop of [write_data] hands to the writer before it
    ends or an example fails to serialize, and that failure. *)
Fixpoint serialize_until_error (xs : list TextToTextExample)
    : list record * option exn :=
  match xs with
  | [] => ([], None)
  | e :: xs' =>
      match serialize_example e with
      | Raise err => ([], Some err)
      | Ok r => let '(rs, o) := serialize_until_error xs' in (r :: rs, o)
      end
  end.

Definition outcome (o : option exn) : result () :=
  match o with
  | None => Ok ()
  | Some e => Raise e
  end.

(** The log line of [write_data]. *)
Definition wrote_record (p : string) (n : nat) : LogRecord :=
  {| log_msg := "Wrote %s with %d examples";
     log_args := [LogStr (basename p); LogInt (Z.of_nat n)] |}.

(** No regular file sits where a directory is to be made: the condition
    under which [mkdirs] goes through. *)
Fixpoint clear_path (fs : LocalFS) (pre rest : list string) : bool :=
  match rest with
  | [] => true
  | c :: rest' =>
      match fs !! (pre ++ [c]) with
      | Some (File _) => false
      | _ => clear_path fs (pre ++ [c]) rest'
      end
  end.

(** *** The schema as the specification words it

    A record that holds exactly the four fields, three of them strings and
    [turn] a 64-bit integer. *)
Definition is_bytes_list (f : option Feature) : bool :=
  match f with Some (Feature_bytes_list _) => true | _ => false end.

Definition is_int64_list (f : option Feature) : bool :=
  match f with Some (Feature_int64_list _) => true | _ => false end.

Definition exact_schema (r : record) : bool :=
  let ex := ParseFromString r in
  bool_decide (dom ex = ({["input"; "value"; "dialog_id"; "turn"]} : gset string))
  && is_bytes_list (ex !! "input") && is_bytes_list (ex !! "value")
  && is_bytes_list (ex !! "dialog_id") && is_int64_list (ex !! "turn").

(** *** What [decode_fn] accepts

    The strings of a variable-length string feature ([None]: a kind of
    another type), and the value of the scalar integer feature ([None]:
    missing, of another type, or not exactly one value). *)
Definition strings_of (f : option Feature) : option (list pybytes) :=
  match f with
  | None | Some Feature_unset => Some []
  | Some (Feature_bytes_list l) => Some l
  | Some (Feature_float_list _) | Some (Feature_int64_list _) => None
  end.

Definition scalar_int64_of (f : option Feature) : option Z :=
  match f with
  | Some (Feature_int64_list [n]) => Some n
  | _ => None
  end.

(** *** Sample data *)

Definition ex_hi : TextToTextExample :=
  {| src := [104; 105]; tgt := [104; 101; 108; 108; 111];
     dialog_id := [100; 49]; turn := 0; frame := 0 |}.

Definition ex_bye : TextToTextExample :=
  {| src := [98; 121; 101]; tgt := [0x20AC]; dialog_id := [100; 50];
     turn := 1; frame := 2 |}.

Definition mkWorld (fs : LocalFS) (xs : list TextToTextExample)
    (g : nat → nat) : World LocalFS :=
  {| w_fs := fs; w_heap := {[ 0%nat := xs ]}; w_rng := g; w_log := [] |}.

(** The order in which the list object is written. *)
Definition arranged {A} (sh : bool) (xs : list A) (g : nat → nat) : list A :=
  if sh then (shuffle xs g).1 else xs.

Definition path_test : string := "out/train/data.tfrecord".

(** A record with a fifth entry, and one without [input]. *)
Definition r_extra : record :=
  [ ("input", Feature_bytes_list [[104; 105]]);
    ("value", Feature_bytes_list [[104; 101; 108; 108; 111]]);
    ("dialog_id", Feature_bytes_list [[100; 49]]);
    ("turn", Feature_int64_list [0]);
    ("frame", Feature_int64_list [0]) ].

Definition r_missing : record :=
  [ ("value", Feature_bytes_list [[104; 101; 108; 108; 111]]);
    ("dialog_id", Feature_bytes_list [[100; 49]]);
    ("turn", Feature_int64_list [0]) ].

(** *** The texts of an example together *)

Definition texts_encodable (e : TextToTextExample) : bool :=
  encodable (src e) && encodable (tgt e) && encodable (dialog_id e).

(** *** Recording the calls made to a back end

    The calls of [write_data] to the file system, in the order they are
    made. A recording back end wraps another one: each call is noted, then
    passed on, whatever it returns. *)

Inductive fs_call :=
  | MakeDirs (path : string)
  | WriterOpen (path : string)
  | WriterWrite (path : string) (r : record)
  | WriterClose (path : string).

Record Traced (FS : Type) := { base : FS; calls : list fs_call }.
Arguments base {FS} _.
Arguments calls {FS} _.

Definition traced {FS} (c : fs_call) (op : FS → result () * FS)
    (t : Traced FS) : result () * Traced FS :=
  let '(r, f) := op (base t) in (r, {| base := f; calls := calls t ++ [c] |}).

Definition Traced_GFile {FS} `{!GFile FS} : GFile (Traced FS) := {|
  gfile_makedirs p := traced (MakeDirs p) (gfile_makedirs p);
  record_writer_open p := traced (WriterOpen p) (record_writer_open p);
  record_writer_write p r :=
    traced (WriterWrite p r) (record_writer_write p r);
  record_writer_close p := traced (WriterClose p) (record_writer_close p)
|}.

(** What a call may add to the log: nothing, and then it did not return
    normally, or the one line with the length of the list. *)
Definition logged (p : string) (heap : gmap nat (list TextToTextExample))
    (examples : nat) (r : result ()) (l : list LogRecord) : Prop :=
  (l = [] ∧ r ≠ Ok ())
  ∨ ∃ xs, heap !! examples = Some xs ∧ l = [wrote_record p (length xs)].

(** A last component that names a file: not empty, not [.] and not [..]. *)
Definition file_name (c : string) : bool :=
  is_name c && negb (String.eqb c "..").

Definition tracedWorld (xs : list TextToTextExample) (g : nat → nat)
    : World (Traced LocalFS) :=
  {| w_fs := {| base := ∅; calls := [] |}; w_heap := {[ 0%nat := xs ]};
     w_rng := g; w_log := [] |}.

Definition ex_far : TextToTextExample :=
  {| src := [104]; tgt := [105]; dialog_id := [100]; turn := 2 ^ 63;
     frame := 0 |}.

(** * Properties *)

(** ** UTF-8 *)

Ltac zbool :=
  repeat match goal with
  | |- context [?a <=? ?b] => destruct (Z.leb_spec a b); try lia
  | |- context [?a <? ?b] => destruct (Z.ltb_spec a b); try lia
  | H : context [?a <=? ?b] |- _ => destruct (Z.leb_spec a b); try lia
  | H : context [?a <? ?b] |- _ => destruct (Z.ltb_spec a b); try lia
  end.

Lemma utf8_encodable_range c :
  utf8_encodable c = true ↔ (0 ≤ c < 0xD800 ∨ 0xE000 ≤ c ≤ 0x10FFFF).
Proof.
  unfold utf8_encodable. split.
  - intros H. zbool; simpl in H; try discriminate; lia.
  - intros H. zbool; reflexivity.
Qed.

Lemma decode_utf8_char c b rest :
  utf8_encode_char c = Ok b →
  decode_utf8 (b ++ rest) = cons c <$> decode_utf8 rest.
Proof.
  unfold utf8_encode_char.
  destruct (utf8_encodable c) eqn:Hc; [|discriminate].
  apply utf8_encodable_range in Hc. cbn [negb].
  destruct (Z.ltb_spec c 0x80).
  { intros [= <-]. cbn [app decode_utf8]. zbool. reflexivity. }
  destruct (Z.ltb_spec c 0x800).
  { intros [= <-]. cbn [app decode_utf8]. unfold is_continuation.
    pose proof (Z.div_mod c 64 ltac:(lia)).
    pose proof (Z.mod_pos_bound c 64 ltac:(lia)).
    zbool. cbn [andb]. do 2 f_equal. lia. }
  destruct (Z.ltb_spec c 0x10000).
  { intros [= <-]. cbn [app decode_utf8]. unfold is_continuation.
    assert (utf8_encodable c = true) as Hc' by (apply utf8_encodable_range; lia).
    pose proof (Z.div_mod c 64 ltac:(lia)).
    pose proof (Z.mod_pos_bound c 64 ltac:(lia)).
    pose proof (Z.div_mod (c / 64) 64 ltac:(lia)).
    pose proof (Z.mod_pos_bound (c / 64) 64 ltac:(lia)).
    assert (c / 4096 = c / 64 / 64) as E by (rewrite Z.div_div by lia; reflexivity).
    assert ((0xE0 + c / 4096 - 0xE0) * 4096 + (0x80 + (c / 64) mod 64 - 0x80) * 64
            + (0x80 + c mod 64 - 0x80) = c) as -> by lia.
    rewrite Hc'. zbool. reflexivity. }
  intros [= <-]. cbn [app decode_utf8]. unfold is_continuation.
  assert (utf8_encodable c = true) as Hc' by (apply utf8_encodable_range; lia).
  pose proof (Z.div_mod c 64 ltac:(lia)).
  pose proof (Z.mod_pos_bound c 64 ltac:(lia)).
  pose proof (Z.div_mod (c / 64) 64 ltac:(lia)).
  pose proof (Z.mod_pos_bound (c / 64) 64 ltac:(lia)).
  pose proof (Z.div_mod (c / 4096) 64 ltac:(lia)).
  pose proof (Z.mod_pos_bound (c / 4096) 64 ltac:(lia)).
  assert (c / 4096 = c / 64 / 64) as E by (rewrite Z.div_div by lia; reflexivity).
  assert (c / 262144 = c / 4096 / 64) as E' by (rewrite Z.div_div by lia; reflexivity).
  assert ((0xF0 + c / 262144 - 0xF0) * 262144 + (0x80 + (c / 4096) mod 64 - 0x80) * 4096
          + (0x80 + (c / 64) mod 64 - 0x80) * 64 + (0x80 + c mod 64 - 0x80) = c)
    as -> by lia.
  rewrite Hc'. zbool. reflexivity.
Qed.

Lemma decode_encode_utf8 s b : encode_utf8 s = Ok b → decode_utf8 b = Some s.
Proof.
  revert b. induction s as [|c s IH]; intros b; cbn [encode_utf8].
  - intros [= <-]. reflexivity.
  - destruct (utf8_encode_char c) as [bc|] eqn:Hc; [|discriminate].
    destruct (encode_utf8 s) as [bs|] eqn:Hs; [|discriminate].
    intros [= <-]. rewrite (decode_utf8_char _ _ _ Hc), (IH _ eq_refl).
    reflexivity.
Qed.

Lemma encode_utf8_total s :
  encodable s = true ↔ ∃ b, encode_utf8 s = Ok b.
Proof.
  unfold encodable. induction s as [|c s IH]; cbn [encode_utf8 forallb].
  - split; eauto.
  - rewrite andb_true_iff, IH. unfold utf8_encode_char.
    destruct (utf8_encodable c); cbn [negb].
    + split.
      * intros [_ [b ->]]. repeat case_match; cbn; eauto.
      * intros [b Hb]. split; [done|].
        destruct (encode_utf8 s); [eauto|].
        repeat case_match; discriminate.
    + split; [intros [? _]; discriminate | intros [b Hb]; discriminate].
Qed.

(** ** Messages and records *)

Lemma Parse_Serialize (ex : Example) :
  ParseFromString (SerializeToString ex) = ex.
Proof.
  unfold ParseFromString, SerializeToString.
  rewrite <- (list_to_map_to_list ex) at 2.
  apply list_to_map_proper.
  - rewrite fmap_reverse, reverse_Permutation. apply NoDup_fst_map_to_list.
  - apply reverse_Permutation.
Qed.

Lemma tf_example_Ok e ex :
  tf_example e = Ok ex ↔
  ∃ i v d, encode_utf8 (src e) = Ok i ∧ encode_utf8 (tgt e) = Ok v
    ∧ encode_utf8 (dialog_id e) = Ok d ∧ in_int64 (turn e) = true
    ∧ ex = example_message i v d (turn e).
Proof.
  unfold tf_example, _int64_feature, _bytes_feature, example_message. split.
  - destruct (encode_utf8 (src e)) as [i|]; [|discriminate].
    destruct (encode_utf8 (tgt e)) as [v|]; [|discriminate].
    destruct (encode_utf8 (dialog_id e)) as [d|]; [|discriminate].
    destruct (in_int64 (turn e)); [|discriminate].
    intros [= <-]. exists i, v, d. done.
  - intros (i & v & d & -> & -> & -> & -> & ->). reflexivity.
Qed.

Lemma writable_tf_example e :
  writable e = true ↔ ∃ ex, tf_example e = Ok ex.
Proof.
  unfold writable. rewrite !andb_true_iff, !encode_utf8_total. split.
  - intros ((([i Hi] & [v Hv]) & [d Hd]) & Ht).
    eexists. apply tf_example_Ok. eauto 10.
  - intros [ex (i & v & d & Hi & Hv & Hd & Ht & _)%tf_example_Ok]. eauto 10.
Qed.

Lemma writable_serialize_example e :
  writable e = true ↔ ∃ r, serialize_example e = Ok r.
Proof.
  rewrite writable_tf_example. unfold serialize_example.
  destruct (tf_example e) as [ex|]; cbn; split; eauto;
    intros [? ?]; discriminate.
Qed.

Lemma serialize_example_Ok e r :
  serialize_example e = Ok r ↔
  ∃ ex, tf_example e = Ok ex ∧ r = SerializeToString ex.
Proof.
  unfold serialize_example. destruct (tf_example e) as [ex|]; cbn.
  - split; [intros [= <-]; eauto | intros (? & [= <-] & ->); done].
  - split; [discriminate | intros (? & ? & _); discriminate].
Qed.

Lemma decode_fn_example_message i v d n :
  decode_fn (SerializeToString (example_message i v d n)) = Ok (decoded i v d n).
Proof.
  unfold decode_fn, parse_single_example. rewrite Parse_Serialize.
  reflexivity.
Qed.

Lemma serialize_example_entries i v d n :
  SerializeToString (example_message i v d n)
  ≡ₚ [ ("input", Feature_bytes_list [i]); ("value", Feature_bytes_list [v]);
       ("dialog_id", Feature_bytes_list [d]); ("turn", Feature_int64_list [n]) ].
Proof.
  unfold SerializeToString, example_message.
  rewrite !map_to_list_insert, map_to_list_empty; [done|..];
    by simplify_map_eq.
Qed.

Lemma decode_serialized e r :
  serialize_example e = Ok r → decode_fn r = decoded_example e.
Proof.
  intros (ex & (i & v & d & Hi & Hv & Hd & Ht & ->)%tf_example_Ok & ->)
    %serialize_example_Ok.
  rewrite decode_fn_example_message. unfold decoded_example.
  rewrite Hi, Hv, Hd. reflexivity.
Qed.

(** ** The local file system *)

Lemma is_dir_lookup (fs : LocalFS) k :
  k ≠ [] → is_dir fs k = true ↔ fs !! k = Some Dir.
Proof.
  intros Hk. unfold is_dir. destruct k as [|c k]; [done|].
  destruct (fs !! (c :: k)) as [[|rs]|]; split; (done || discriminate).
Qed.

Lemma clear_path_insert (fs : LocalFS) k0 n pre rest :
  (length k0 ≤ length pre)%nat →
  clear_path (<[k0 := n]> fs) pre rest = clear_path fs pre rest.
Proof.
  revert pre. induction rest as [|c rest IH]; intros pre Hlen; [done|].
  cbn [clear_path]. rewrite lookup_insert_ne.
  - rewrite IH; [done|]. rewrite length_app. cbn. lia.
  - intros ->. rewrite length_app in Hlen. cbn in Hlen. lia.
Qed.

Lemma mkdirs_spec rest : ∀ pre (fs : LocalFS),
  clear_path fs pre rest = true →
  ∃ fs', mkdirs pre rest fs = (Ok (), fs')
    ∧ (∀ q, q ≠ [] → q `prefix_of` rest → fs' !! (pre ++ q) = Some Dir)
    ∧ (∀ k n, fs !! k = Some n → fs' !! k = Some n).
Proof.
  induction rest as [|c rest IH]; intros pre fs Hclear.
  - exists fs. split_and!; [done| |done].
    intros q Hq [t Ht]. by destruct q.
  - cbn [clear_path mkdirs] in *.
    assert (∀ fs1 : LocalFS,
      fs1 !! (pre ++ [c]) = Some Dir →
      (∀ k n, fs !! k = Some n → fs1 !! k = Some n) →
      clear_path fs1 (pre ++ [c]) rest = true →
      ∃ fs', mkdirs (pre ++ [c]) rest fs1 = (Ok (), fs')
        ∧ (∀ q, q ≠ [] → q `prefix_of` c :: rest →
             fs' !! (pre ++ q) = Some Dir)
        ∧ (∀ k n, fs !! k = Some n → fs' !! k = Some n)) as Hstep.
    { intros fs1 Hk Hkeep Hc.
      destruct (IH _ _ Hc) as (fs' & Hrun & Hdirs & Hkeep').
      exists fs'. split_and!; [done| |by eauto].
      intros q Hq [t Ht]. destruct q as [|c' q]; [done|].
      simplify_eq/=.
      destruct (decide (q = [])) as [->|Hne]; [by eauto|].
      rewrite (cons_middle c' pre), (assoc_L (++)).
      apply Hdirs; [done|]. by exists t. }
    destruct (fs !! (pre ++ [c])) as [[|rs]|] eqn:Hk.
    + by apply Hstep.
    + discriminate.
    + apply Hstep.
      * by rewrite lookup_insert_eq.
      * intros k n Hn. rewrite lookup_insert_ne; [done|]. congruence.
      * by rewrite clear_path_insert.
Qed.

Lemma mkdirs_blocked rest : ∀ pre (fs : LocalFS),
  clear_path fs pre rest = false →
  ∃ fs', mkdirs pre rest fs = (Raise FailedPreconditionError, fs').
Proof.
  induction rest as [|c rest IH]; intros pre fs Hclear; [discriminate|].
  cbn [clear_path mkdirs] in *.
  destruct (fs !! (pre ++ [c])) as [[|rs]|] eqn:Hk; eauto.
  apply IH. by rewrite clear_path_insert.
Qed.

Lemma mkdirs_existing rest : ∀ pre (fs : LocalFS),
  (∀ q, q ≠ [] → q `prefix_of` rest → fs !! (pre ++ q) = Some Dir) →
  mkdirs pre rest fs = (Ok (), fs).
Proof.
  induction rest as [|c rest IH]; intros pre fs Hdirs; [done|].
  cbn [mkdirs]. rewrite (Hdirs [c]); [|done|by apply prefix_cons, prefix_nil].
  apply IH. intros q Hq [t ->].
  rewrite <- (assoc_L (++)). apply Hdirs; [done|].
  by apply prefix_cons, prefix_app_r.
Qed.

(** ** Running [write_data] *)

Lemma write_data_unfold {FS} `{!GFile FS} loc p sh (w : World FS) :
  write_data loc p sh w =
  match gfile_makedirs (dirname p) (w_fs w) with
  | (Ok _, f) => write_body loc p sh (set_fs f w)
  | (Raise e, f) => (Raise e, set_fs f w)
  end.
Proof.
  unfold write_data, mbind, M_bind, lift_fs.
  by destruct (gfile_makedirs (dirname p) (w_fs w)) as [[[]|e] f].
Qed.

Lemma set_fs_id {FS} (w : World FS) : set_fs (w_fs w) w = w.
Proof. by destruct w. Qed.

Lemma serialize_until_error_writable xs :
  forallb writable xs = true →
  ∃ rs, serialize_until_error xs = (rs, None)
    ∧ serialize_example <$> xs = Ok <$> rs.
Proof.
  induction xs as [|e xs IH]; cbn [forallb serialize_until_error].
  - exists []. done.
  - intros [[r Hr]%writable_serialize_example [rs [Hrs Heq]]%IH]%andb_true_iff.
    exists (r :: rs). rewrite Hr, Hrs. cbn. by rewrite Hr, Heq.
Qed.

Lemma serialize_until_error_None xs rs :
  serialize_until_error xs = (rs, None) →
  serialize_example <$> xs = Ok <$> rs ∧ forallb writable xs = true.
Proof.
  revert rs. induction xs as [|e xs IH]; intros rs; cbn [serialize_until_error].
  - intros [= <-]. done.
  - destruct (serialize_example e) as [r|] eqn:Hr; [|discriminate].
    destruct (serialize_until_error xs) as [rs' o]. intros [= <- ->].
    destruct (IH _ eq_refl) as [Heq Hw]. cbn. rewrite Hr, Heq, Hw.
    split; [done|]. apply andb_true_iff. split; [|done].
    apply writable_serialize_example. eauto.
Qed.

(** The loop over the examples, on a file that is open at [p]. *)
Lemma write_examples_local (p : string) xs : ∀ (w : World LocalFS) rs0,
  w_fs w !! path_components p = Some (File rs0) →
  write_examples p xs w =
  (outcome (serialize_until_error xs).2,
   set_fs (<[path_components p := File (rs0 ++ (serialize_until_error xs).1)]>
             (w_fs w)) w).
Proof.
  induction xs as [|e xs IH]; intros w rs0 Hfile.
  - cbn. by rewrite app_nil_r, insert_id, set_fs_id.
  - cbn [write_examples serialize_until_error].
    unfold mbind at 1, M_bind at 1.
    unfold write_example, mbind, M_bind, lift_result, lift_fs.
    destruct (serialize_example e) as [r|err] eqn:Hr.
    + cbn [record_writer_write LocalFS_GFile]. unfold local_write.
      rewrite Hfile. fold (@mbind (M LocalFS) _).
      rewrite (IH _ (rs0 ++ [r])); [|cbn; by rewrite lookup_insert_eq].
      destruct (serialize_until_error xs) as [rs o]. cbn. unfold set_fs. cbn.
      by rewrite insert_insert_eq, <- (assoc_L (++)).
    + cbn. by rewrite app_nil_r, insert_id, set_fs_id.
Qed.

Lemma swap_Permutation {A} (x : list A) i j : swap x i j ≡ₚ x.
Proof.
  unfold swap. destruct (x !! i) as [a|] eqn:Hi; [|done].
  destruct (x !! j) as [b|] eqn:Hj; [|done].
  by apply Permutation_insert_swap.
Qed.

Lemma shuffle_from_Permutation {A} i : ∀ (x : list A) g,
  (shuffle_from i x g).1 ≡ₚ x.
Proof.
  induction i as [|i IH]; intros x g; [done|].
  cbn [shuffle_from randbelow]. rewrite IH. apply swap_Permutation.
Qed.

Lemma shuffle_Permutation {A} (x : list A) g : (shuffle x g).1 ≡ₚ x.
Proof. apply shuffle_from_Permutation. Qed.

Lemma local_open_Ok (p : string) (fs fs2 : LocalFS) :
  local_open p fs = (Ok (), fs2) → fs2 = <[path_components p := File []]> fs.
Proof.
  unfold local_open. repeat case_match; congruence.
Qed.

(** The [with] block and the log line, once the writer could be opened:
    the file holds what the loop wrote, and the log line is only reached
    when every example was serialized. *)
Lemma write_body_keep (loc : nat) (p : string) (w : World LocalFS) xs fs2 :
  w_heap w !! loc = Some xs →
  local_open p (w_fs w) = (Ok (), fs2) →
  write_body loc p false w =
  let '(rs, o) := serialize_until_error xs in
  (outcome o,
   set_log (w_log w ++ match o with
                       | None => [wrote_record p (length xs)]
                       | Some _ => []
                       end)
     (set_fs (<[path_components p := File rs]> fs2) w)).
Proof.
  intros Hxs Hopen.
  pose proof (local_open_Ok _ _ _ Hopen) as ->.
  unfold write_body, with_TFRecordWriter, mbind, M_bind, mret, M_ret, lift_fs.
  cbn [record_writer_open record_writer_close LocalFS_GFile].
  rewrite Hopen. unfold read_list, len. cbn [w_heap set_fs].
  rewrite Hxs. fold (@mbind (M LocalFS) _) in *.
  rewrite (write_examples_local p xs _ []); [|cbn; by rewrite lookup_insert_eq].
  destruct (serialize_until_error xs) as [rs [err|]]; cbn.
  - unfold set_log, set_fs. cbn. by rewrite insert_insert_eq, app_nil_r.
  - rewrite Hxs. cbn. unfold set_log, set_fs. cbn.
    by rewrite insert_insert_eq.
Qed.

Lemma write_body_shuffle (loc : nat) (p : string) (w : World LocalFS) xs :
  w_heap w !! loc = Some xs →
  write_body loc p true w =
  write_body loc p false
    (set_rng (shuffle xs (w_rng w)).2
       (set_heap (<[loc := (shuffle xs (w_rng w)).1]> (w_heap w)) w)).
Proof.
  intros Hxs. unfold write_body at 1, random_shuffle.
  unfold mbind at 1, M_bind at 1. rewrite Hxs.
  by destruct (shuffle xs (w_rng w)).
Qed.

Lemma write_body_closed (loc : nat) (p : string) (w : World LocalFS) e fs2 :
  local_open p (w_fs w) = (Raise e, fs2) →
  write_body loc p false w = (Raise e, set_fs fs2 w).
Proof.
  intros Hopen.
  unfold write_body, with_TFRecordWriter, mbind, M_bind, mret, M_ret, lift_fs.
  cbn [record_writer_open LocalFS_GFile]. by rewrite Hopen.
Qed.

(** [write_data] on the local file system, when the directory can be made
    and the file can be opened. *)
Lemma write_data_local (loc : nat) (p : string) (sh : bool)
    (w : World LocalFS) xs fs1 fs2 :
  w_heap w !! loc = Some xs →
  local_makedirs (dirname p) (w_fs w) = (Ok (), fs1) →
  local_open p fs1 = (Ok (), fs2) →
  ∃ w',
    write_data loc p sh w =
      (outcome (serialize_until_error (arranged sh xs (w_rng w))).2, w')
    ∧ w_fs w' = <[path_components p :=
                   File (serialize_until_error (arranged sh xs (w_rng w))).1]> fs2
    ∧ w_heap w' = (if sh then <[loc := arranged sh xs (w_rng w)]> (w_heap w)
                   else w_heap w)
    ∧ w_log w' = w_log w ++
        match (serialize_until_error (arranged sh xs (w_rng w))).2 with
        | None => [wrote_record p (length xs)]
        | Some _ => []
        end.
Proof.
  intros Hxs Hmk Hopen. rewrite write_data_unfold.
  cbn [gfile_makedirs LocalFS_GFile]. rewrite Hmk.
  destruct sh; unfold arranged.
  - rewrite (write_body_shuffle _ _ _ xs) by done.
    erewrite write_body_keep; [| cbn; by apply lookup_insert_eq | cbn; exact Hopen].
    rewrite (Permutation_length (shuffle_Permutation xs (w_rng w))).
    destruct (serialize_until_error (shuffle xs (w_rng w)).1) as [rs o].
    eexists. split; [reflexivity|]. done.
  - erewrite write_body_keep; [| exact Hxs | cbn; exact Hopen].
    destruct (serialize_until_error xs) as [rs o].
    eexists. split; [reflexivity|]. done.
Qed.

Lemma forallb_Forall {A} (f : A → bool) xs :
  forallb f xs = true ↔ Forall (λ x, f x = true) xs.
Proof.
  induction xs as [|x xs IH]; cbn [forallb].
  - split; constructor.
  - by rewrite andb_true_iff, Forall_cons, IH.
Qed.

Lemma decoded_example_Ok e r :
  serialize_example e = Ok r → ∃ d, decoded_example e = Ok d.
Proof.
  intros (ex & (i & v & d & Hi & Hv & Hd & _)%tf_example_Ok & _)
    %serialize_example_Ok.
  unfold decoded_example. rewrite Hi, Hv, Hd. eauto.
Qed.

Lemma decode_all_serialized xs : ∀ rs,
  serialize_example <$> xs = Ok <$> rs →
  ∃ ds, decode_all rs = Ok ds ∧ decoded_example <$> xs = Ok <$> ds.
Proof.
  induction xs as [|e xs IH]; intros [|r rs] Heq; try discriminate.
  - exists []. done.
  - cbn in Heq. injection Heq as Hr Hrs.
    destruct (IH _ Hrs) as (ds & Hds & Hdec).
    destruct (decoded_example_Ok _ _ Hr) as [d Hd].
    exists (d :: ds). cbn [decode_all].
    rewrite (decode_serialized _ _ Hr), Hd, Hds. cbn. by rewrite Hd, Hdec.
Qed.

(** ** The record and its fields *)

(** C1. For an example whose [src], [tgt] and [dialog_id] are UTF-8
    encodable, the record that [write_data] serializes for it decodes, under
    the schema of [decode_fn], to [input], [value] and [dialog_id] holding
    the UTF-8 bytes of [src], [tgt] and [dialog_id] (which decode back to
    these texts) and to [turn] holding the turn. Such a record is produced
    whenever the turn fits 64 bits. The record does not depend on [frame],
    so the frame cannot be recovered from it. *)
Theorem C1_written_record_decodes (e : TextToTextExample) :
  encodable (src e) = true →
  encodable (tgt e) = true →
  encodable (dialog_id e) = true →
  (in_int64 (turn e) = true → ∃ r, serialize_example e = Ok r)
  ∧ (∀ r, serialize_example e = Ok r →
       ∃ i v d, decode_fn r = Ok (decoded i v d (turn e))
         ∧ decode_utf8 i = Some (src e)
         ∧ decode_utf8 v = Some (tgt e)
         ∧ decode_utf8 d = Some (dialog_id e))
  ∧ (∀ n, serialize_example
            {| src := src e; tgt := tgt e; dialog_id := dialog_id e;
               turn := turn e; frame := n |}
          = serialize_example e).
Proof.
  intros Hs Ht Hd. split_and!.
  - intros Hn. apply writable_serialize_example. unfold writable.
    by rewrite Hs, Ht, Hd, Hn.
  - intros r (ex & (i & v & d & Hi & Hv & Hdd & _ & ->)%tf_example_Ok & ->)
      %serialize_example_Ok.
    exists i, v, d. rewrite decode_fn_example_message.
    split_and!; [done|by apply decode_encode_utf8..].
  - reflexivity.
Qed.

Lemma C1_written_record_decodes_witness :
  encodable (src ex_hi) = true
  ∧ encodable (tgt ex_hi) = true
  ∧ encodable (dialog_id ex_hi) = true
  ∧ (in_int64 (turn ex_hi) = true → ∃ r, serialize_example ex_hi = Ok r)
  ∧ (∀ r, serialize_example ex_hi = Ok r →
       ∃ i v d, decode_fn r = Ok (decoded i v d (turn ex_hi))
         ∧ decode_utf8 i = Some (src ex_hi)
         ∧ decode_utf8 v = Some (tgt ex_hi)
         ∧ decode_utf8 d = Some (dialog_id ex_hi))
  ∧ (∀ n, serialize_example
            {| src := src ex_hi; tgt := tgt ex_hi;
               dialog_id := dialog_id ex_hi;
               turn := turn ex_hi; frame := n |}
          = serialize_example ex_hi).
Proof.
  split; [reflexivity|]. split; [reflexivity|]. split; [reflexivity|].
  apply (C1_written_record_decodes ex_hi); reflexivity.
Defined.



(** C4. Whenever [write_data] serializes an example, the record holds
    exactly four entries: [input], [value] and [dialog_id], each one byte
    string, the UTF-8 encoding of [src], [tgt] and [dialog_id], and [turn],
    one 64-bit integer. It does so for every writable example. No entry is
    named [frame], and the record is the same whatever the frame. *)
Theorem C4_wire_fields (e : TextToTextExample) :
  (writable e = true ↔ ∃ r, serialize_example e = Ok r)
  ∧ (∀ r, serialize_example e = Ok r →
       ∃ i v d,
         encode_utf8 (src e) = Ok i
         ∧ encode_utf8 (tgt e) = Ok v
         ∧ encode_utf8 (dialog_id e) = Ok d
         ∧ in_int64 (turn e) = true
         ∧ r ≡ₚ [ ("input", Feature_bytes_list [i]);
                  ("value", Feature_bytes_list [v]);
                  ("dialog_id", Feature_bytes_list [d]);
                  ("turn", Feature_int64_list [turn e]) ]
         ∧ ∀ f, ("frame", f) ∉ r)
  ∧ (∀ n, serialize_example
            {| src := src e; tgt := tgt e; dialog_id := dialog_id e;
               turn := turn e; frame := n |}
          = serialize_example e).
Proof.
  split_and!.
  - apply writable_serialize_example.
  - intros r (ex & (i & v & d & Hi & Hv & Hd & Hn & ->)%tf_example_Ok & ->)
      %serialize_example_Ok.
    exists i, v, d. split_and!; try done.
    + apply serialize_example_entries.
    + intros f. rewrite serialize_example_entries.
      rewrite !elem_of_cons, elem_of_nil.
      intros [?|[?|[?|[?|[]]]]]; discriminate.
  - reflexivity.
Qed.

Lemma C4_wire_fields_witness :
  ∃ r, serialize_example ex_hi = Ok r
    ∧ r ≡ₚ [ ("input", Feature_bytes_list [[104; 105]]);
             ("value", Feature_bytes_list [[104; 101; 108; 108; 111]]);
             ("dialog_id", Feature_bytes_list [[100; 49]]);
             ("turn", Feature_int64_list [0]) ].
Proof.
  destruct (C4_wire_fields ex_hi) as (Hw & Hr & _).
  destruct (proj1 Hw eq_refl) as [r Hser]. exists r. split; [exact Hser|].
  destruct (Hr r Hser) as (i & v & d & Hi & Hv & Hd & _ & Hperm & _).
  vm_compute in Hi, Hv, Hd.
  injection Hi as Hi. injection Hv as Hv. injection Hd as Hd.
  subst i v d. exact Hperm.
Defined.

(** C9. The constructor raises when [src], [tgt], [dialog_id] or [turn] is
    not supplied; with the four supplied it returns a record whose fields
    read back as given, with [frame] the value supplied, or 0 when none
    is. *)
Theorem C9_constructor
    (a_src a_tgt a_dialog_id : option pystr) (a_turn a_frame : option Z) :
  (a_src = None ∨ a_tgt = None ∨ a_dialog_id = None ∨ a_turn = None →
   TextToTextExample_init a_src a_tgt a_dialog_id a_turn a_frame
   = Raise TypeError)
  ∧ (∀ s t d n,
       a_src = Some s → a_tgt = Some t → a_dialog_id = Some d →
       a_turn = Some n →
       ∃ e, TextToTextExample_init a_src a_tgt a_dialog_id a_turn a_frame
            = Ok e
         ∧ src e = s ∧ tgt e = t ∧ dialog_id e = d ∧ turn e = n
         ∧ (a_frame = None → frame e = 0)
         ∧ (∀ f, a_frame = Some f → frame e = f)).
Proof.
  split.
  - destruct a_src, a_tgt, a_dialog_id, a_turn; try reflexivity.
    intros [?|[?|[?|?]]]; discriminate.
  - intros s t d n -> -> -> ->. eexists. split; [reflexivity|].
    cbn. split_and!; try done.
    + by intros ->.
    + by intros f ->.
Qed.

Lemma C9_constructor_witness :
  TextToTextExample_init None (Some [104]) (Some [100]) (Some 3) None
  = Raise TypeError
  ∧ ∃ e, TextToTextExample_init (Some [104; 105]) (Some [104]) (Some [100])
           (Some 3) None = Ok e
      ∧ src e = [104; 105] ∧ turn e = 3 ∧ frame e = 0.
Proof.
  split.
  - apply (C9_constructor None (Some [104]) (Some [100]) (Some 3) None).
    left. reflexivity.
  - destruct (proj2 (C9_constructor (Some [104; 105]) (Some [104])
                       (Some [100]) (Some 3) None)
                [104; 105] [104] [100] 3 eq_refl eq_refl eq_refl eq_refl)
      as (e & He & Hs & _ & _ & Hn & Hf & _).
    exists e. split; [exact He|]. split; [exact Hs|]. split; [exact Hn|].
    apply Hf. reflexivity.
Defined.

(** ** Writing the file *)

Lemma read_records_insert (p : string) (fs : LocalFS) rs :
  read_records (<[path_components p := File rs]> fs) p = Some rs.
Proof. unfold read_records. by rewrite lookup_insert_eq. Qed.

(** C3. With [shuffle] false the records are written in the order of the
    input: for a list of writable examples, when the directory can be made
    and the file opened, [write_data] returns normally, the file then holds
    the records serialized from the examples, in their order, and decoding
    the file record by record gives, in the same order, what each example
    decodes to. *)
Theorem C3_order_preserved (w : World LocalFS) (examples : nat)
    (output_path : string) (xs : list TextToTextExample) (fs1 fs2 : LocalFS) :
  w_heap w !! examples = Some xs →
  forallb writable xs = true →
  local_makedirs (dirname output_path) (w_fs w) = (Ok (), fs1) →
  local_open output_path fs1 = (Ok (), fs2) →
  ∃ w' rs ds,
    write_data examples output_path false w = (Ok (), w')
    ∧ read_records (w_fs w') output_path = Some rs
    ∧ serialize_example <$> xs = Ok <$> rs
    ∧ decode_all rs = Ok ds
    ∧ decoded_example <$> xs = Ok <$> ds.
Proof.
  intros Hxs Hall Hmk Hopen.
  destruct (write_data_local examples output_path false w xs fs1 fs2)
    as (w' & Hrun & Hfs & _); [done..|].
  cbn [arranged] in *.
  destruct (serialize_until_error_writable xs Hall) as (rs & Heq & Hrs).
  rewrite Heq in Hrun, Hfs. cbn in Hrun, Hfs.
  destruct (decode_all_serialized xs rs Hrs) as (ds & Hds & Hdec).
  exists w', rs, ds. rewrite Hfs, read_records_insert. done.
Qed.

Lemma C3_order_preserved_witness :
  ∃ w' rs ds,
    write_data 0 path_test false (mkWorld ∅ [ex_hi; ex_bye] (λ _, 0%nat))
    = (Ok (), w')
    ∧ read_records (w_fs w') path_test = Some rs
    ∧ serialize_example <$> [ex_hi; ex_bye] = Ok <$> rs
    ∧ decode_all rs = Ok ds
    ∧ decoded_example <$> [ex_hi; ex_bye] = Ok <$> ds.
Proof.
  apply (C3_order_preserved (mkWorld ∅ [ex_hi; ex_bye] (λ _, 0%nat)) 0
           path_test [ex_hi; ex_bye]
           (local_makedirs (dirname path_test) ∅).2
           (local_open path_test (local_makedirs (dirname path_test) ∅).2).2);
    reflexivity.
Defined.

(** C5. With [shuffle] true a permutation of the input is written: for a
    list of writable examples, when the directory can be made and the file
    opened, [write_data] returns normally, the file holds as many records as
    there are examples, and the records, and what they decode to, are those
    of the examples up to order. The order depends on the draws of the
    generator: there are draws that exchange two examples and draws that
    leave them in place. *)
Theorem C5_shuffled_permutation (w : World LocalFS) (examples : nat)
    (output_path : string) (xs : list TextToTextExample) (fs1 fs2 : LocalFS) :
  w_heap w !! examples = Some xs →
  forallb writable xs = true →
  local_makedirs (dirname output_path) (w_fs w) = (Ok (), fs1) →
  local_open output_path fs1 = (Ok (), fs2) →
  (∃ w' rs ds,
    write_data examples output_path true w = (Ok (), w')
    ∧ read_records (w_fs w') output_path = Some rs
    ∧ length rs = length xs
    ∧ Ok <$> rs ≡ₚ serialize_example <$> xs
    ∧ decode_all rs = Ok ds
    ∧ Ok <$> ds ≡ₚ decoded_example <$> xs)
  ∧ (∃ (a b : TextToTextExample) g1 g2,
       (shuffle [a; b] g1).1 = [b; a] ∧ (shuffle [a; b] g2).1 = [a; b]
       ∧ a ≠ b).
Proof.
  intros Hxs Hall Hmk Hopen. split.
  - destruct (write_data_local examples output_path true w xs fs1 fs2)
      as (w' & Hrun & Hfs & _); [done..|].
    cbn [arranged] in *.
    pose proof (shuffle_Permutation xs (w_rng w)) as Hperm.
    assert (forallb writable (shuffle xs (w_rng w)).1 = true) as Hall'.
    { apply forallb_Forall. rewrite Hperm. by apply forallb_Forall. }
    destruct (serialize_until_error_writable _ Hall') as (rs & Heq & Hrs).
    rewrite Heq in Hrun, Hfs. cbn in Hrun, Hfs.
    destruct (decode_all_serialized _ rs Hrs) as (ds & Hds & Hdec).
    exists w', rs, ds. rewrite Hfs, read_records_insert.
    split_and!; try done.
    + rewrite <- (length_fmap Ok rs), <- Hrs, length_fmap.
      by rewrite Hperm.
    + by rewrite <- Hrs, Hperm.
    + by rewrite <- Hdec, Hperm.
  - exists ex_hi, ex_bye, (λ _, 0%nat), (λ _, 1%nat). done.
Qed.

Lemma C5_shuffled_permutation_witness :
  ∃ w' rs ds,
    write_data 0 path_test true (mkWorld ∅ [ex_hi; ex_bye] (λ _, 0%nat))
    = (Ok (), w')
    ∧ read_records (w_fs w') path_test = Some rs
    ∧ length rs = length [ex_hi; ex_bye]
    ∧ Ok <$> rs ≡ₚ serialize_example <$> [ex_hi; ex_bye]
    ∧ decode_all rs = Ok ds
    ∧ Ok <$> ds ≡ₚ decoded_example <$> [ex_hi; ex_bye].
Proof.
  apply (C5_shuffled_permutation (mkWorld ∅ [ex_hi; ex_bye] (λ _, 0%nat)) 0
           path_test [ex_hi; ex_bye]
           (local_makedirs (dirname path_test) ∅).2
           (local_open path_test (local_makedirs (dirname path_test) ∅).2).2);
    reflexivity.
Defined.

(** C8. On an empty list [write_data] returns normally (when the directory
    can be made and the file opened), whether it shuffles or not: the file
    exists and holds no record, so that decoding it gives the empty
    sequence, and the log line gives the count 0. *)
Theorem C8_empty_input (w : World LocalFS) (examples : nat)
    (output_path : string) (shuffle : bool) (fs1 fs2 : LocalFS) :
  w_heap w !! examples = Some [] →
  local_makedirs (dirname output_path) (w_fs w) = (Ok (), fs1) →
  local_open output_path fs1 = (Ok (), fs2) →
  ∃ w' rs,
    write_data examples output_path shuffle w = (Ok (), w')
    ∧ read_records (w_fs w') output_path = Some rs
    ∧ rs = []
    ∧ decode_all rs = Ok []
    ∧ w_log w' = w_log w ++ [wrote_record output_path 0].
Proof.
  intros Hxs Hmk Hopen.
  destruct (write_data_local examples output_path shuffle w [] fs1 fs2)
    as (w' & Hrun & Hfs & _ & Hlog); [done..|].
  assert (arranged shuffle ([] : list TextToTextExample) (w_rng w) = [])
    as Harr by (by destruct shuffle).
  rewrite Harr in Hrun, Hfs, Hlog. cbn in Hrun, Hfs, Hlog.
  exists w', []. rewrite Hfs, read_records_insert. done.
Qed.

Lemma C8_empty_input_witness :
  ∃ w' rs,
    write_data 0 path_test true (mkWorld ∅ [] (λ _, 0%nat)) = (Ok (), w')
    ∧ read_records (w_fs w') path_test = Some rs
    ∧ rs = []
    ∧ decode_all rs = Ok []
    ∧ w_log w' = [] ++ [wrote_record path_test 0].
Proof.
  apply (C8_empty_input (mkWorld ∅ [] (λ _, 0%nat)) 0 path_test true
           (local_makedirs (dirname path_test) ∅).2
           (local_open path_test (local_makedirs (dirname path_test) ∅).2).2);
    reflexivity.
Defined.

(** ** The caller's list *)

Lemma write_data_local_closed (loc : nat) (p : string) (sh : bool)
    (w : World LocalFS) xs fs1 e fs2 :
  w_heap w !! loc = Some xs →
  local_makedirs (dirname p) (w_fs w) = (Ok (), fs1) →
  local_open p fs1 = (Raise e, fs2) →
  ∃ w', write_data loc p sh w = (Raise e, w')
    ∧ w_heap w' = (if sh then <[loc := arranged sh xs (w_rng w)]> (w_heap w)
                   else w_heap w).
Proof.
  intros Hxs Hmk Hopen. rewrite write_data_unfold.
  cbn [gfile_makedirs LocalFS_GFile]. rewrite Hmk.
  destruct sh; unfold arranged.
  - rewrite (write_body_shuffle _ _ _ xs) by done.
    erewrite write_body_closed; [|cbn; exact Hopen]. eauto.
  - erewrite write_body_closed; [|cbn; exact Hopen]. eauto.
Qed.

(** The list object after [write_data], however the call ends. *)
Lemma write_data_heap (loc : nat) (p : string) (sh : bool)
    (w : World LocalFS) xs fs1 r w' :
  w_heap w !! loc = Some xs →
  local_makedirs (dirname p) (w_fs w) = (Ok (), fs1) →
  write_data loc p sh w = (r, w') →
  w_heap w' = (if sh then <[loc := arranged sh xs (w_rng w)]> (w_heap w)
               else w_heap w).
Proof.
  intros Hxs Hmk Hrun.
  destruct (local_open p fs1) as [[[]|e] fs2] eqn:Hopen.
  - destruct (write_data_local loc p sh w xs fs1 fs2)
      as (w'' & Hrun' & _ & Hheap & _); [done..|]. congruence.
  - destruct (write_data_local_closed loc p sh w xs fs1 e fs2)
      as (w'' & Hrun' & Hheap); [done..|]. congruence.
Qed.

(** C6. With [shuffle] true [write_data] rearranges the caller's list
    object itself: after the call, however it ends once the directory is
    made, the object holds the shuffled list, a permutation of what it
    held, and the other objects are as before. With [shuffle] false the
    heap is unchanged. The records written are those of the object as it
    is after the call, in its order: no copy is shuffled or written. And
    a shuffle can change the order. *)
Theorem C6_shuffle_in_place (w : World LocalFS) (examples : nat)
    (output_path : string) (xs : list TextToTextExample) (fs1 : LocalFS) :
  w_heap w !! examples = Some xs →
  local_makedirs (dirname output_path) (w_fs w) = (Ok (), fs1) →
  (∀ r w', write_data examples output_path false w = (r, w') →
     w_heap w' = w_heap w)
  ∧ (∀ r w', write_data examples output_path true w = (r, w') →
       w_heap w' = <[examples := (shuffle xs (w_rng w)).1]> (w_heap w))
  ∧ (shuffle xs (w_rng w)).1 ≡ₚ xs
  ∧ (∀ sh w' rs,
       write_data examples output_path sh w = (Ok (), w') →
       read_records (w_fs w') output_path = Some rs →
       ∃ xs', w_heap w' !! examples = Some xs'
         ∧ serialize_example <$> xs' = Ok <$> rs)
  ∧ (∃ (ys : list TextToTextExample) g, (shuffle ys g).1 ≠ ys).
Proof.
  intros Hxs Hmk. split_and!.
  - intros r w' Hrun.
    apply (write_data_heap examples output_path false w xs fs1 r w'); done.
  - intros r w' Hrun.
    apply (write_data_heap examples output_path true w xs fs1 r w'); done.
  - apply shuffle_Permutation.
  - intros sh w' rs Hrun Hread.
    destruct (local_open output_path fs1) as [[[]|e] fs2] eqn:Hopen.
    + destruct (write_data_local examples output_path sh w xs fs1 fs2)
        as (w'' & Hrun' & Hfs & Hheap & _); [done..|].
      rewrite Hrun in Hrun'. injection Hrun' as Hout <-.
      destruct (serialize_until_error (arranged sh xs (w_rng w)))
        as [rs' [err|]] eqn:Hser; [discriminate|].
      apply serialize_until_error_None in Hser as [Heq _].
      cbn in Hfs. rewrite Hfs, read_records_insert in Hread.
      injection Hread as <-.
      exists (arranged sh xs (w_rng w)). split; [|done].
      rewrite Hheap. destruct sh; [by rewrite lookup_insert_eq|done].
    + destruct (write_data_local_closed examples output_path sh w xs fs1 e fs2)
        as (w'' & Hrun' & _); [done..|]. congruence.
  - exists [ex_hi; ex_bye], (λ _, 0%nat). done.
Qed.

Lemma C6_shuffle_in_place_witness :
  w_heap (write_data 0 path_test true
            (mkWorld ∅ [ex_hi; ex_bye] (λ _, 0%nat))).2
  = <[0%nat := [ex_bye; ex_hi]]> {[ 0%nat := [ex_hi; ex_bye] ]}
  ∧ w_heap (write_data 0 path_test false
              (mkWorld ∅ [ex_hi; ex_bye] (λ _, 0%nat))).2
    = {[ 0%nat := [ex_hi; ex_bye] ]}.
Proof.
  destruct (C6_shuffle_in_place (mkWorld ∅ [ex_hi; ex_bye] (λ _, 0%nat)) 0
              path_test [ex_hi; ex_bye] (local_makedirs (dirname path_test) ∅).2)
    as (Hkeep & Hshuffle & _); [reflexivity..|].
  split.
  - eapply Hshuffle. apply surjective_pairing.
  - eapply Hkeep. apply surjective_pairing.
Defined.

(** ** The directory of the output path *)



Lemma rsplit_sep_bare (p : string) :
  has_sep p = false → rsplit_sep p = (EmptyString, p).
Proof.
  induction p as [|c p IH]; [done|]. cbn [has_sep rsplit_sep].
  intros [Hc Hp]%orb_false_iff. by rewrite (IH Hp), Hc.
Qed.

Lemma dirname_bare (p : string) : has_sep p = false → dirname p = EmptyString.
Proof. intros Hp. unfold dirname. by rewrite rsplit_sep_bare. Qed.



(** ** The scenarios of the specification *)

Example scenario_single_record :
  let w' := (write_data 0 path_test false (mkWorld ∅ [ex_hi] (λ _, 0%nat))).2 in
  decode_all <$> read_records (w_fs w') path_test
  = Some (Ok [decoded [104; 105] [104; 101; 108; 108; 111] [100; 49] 0])
  ∧ decode_utf8 [104; 105] = Some (src ex_hi)
  ∧ decode_utf8 [104; 101; 108; 108; 111] = Some (tgt ex_hi)
  ∧ w_log w' = [wrote_record path_test 1].
Proof. split_and!; reflexivity. Qed.

Example scenario_bare_filename_local :
  (write_data 0 "data.tfrecord" false (mkWorld ∅ [ex_hi] (λ _, 0%nat))).1
  = Ok ().
Proof. reflexivity. Qed.

Example scenario_bare_filename_strict :
  @write_data LocalFS StrictFS_GFile 0 "data.tfrecord" false
    (mkWorld ∅ [ex_hi] (λ _, 0%nat))
  = (Raise NotFoundError, mkWorld ∅ [ex_hi] (λ _, 0%nat)).
Proof. reflexivity. Qed.

Example scenario_file_in_the_way :
  (write_data 0 path_test false
     (mkWorld {[ ["out"] := File [] ]} [ex_hi] (λ _, 0%nat))).1
  = Raise FailedPreconditionError.
Proof. reflexivity. Qed.

Example scenario_turn_out_of_range :
  serialize_example
    {| src := [104]; tgt := [105]; dialog_id := [100]; turn := 2 ^ 63;
       frame := 0 |}
  = Raise ValueError.
Proof. reflexivity. Qed.

Example scenario_lone_surrogate :
  serialize_example
    {| src := [0xD800]; tgt := [105]; dialog_id := [100]; turn := 0;
       frame := 0 |}
  = Raise UnicodeEncodeError.
Proof. reflexivity. Qed.

Example scenario_wrong_type :
  decode_fn [ ("input", Feature_int64_list [1]); ("turn", Feature_int64_list [0]) ]
  = Raise InvalidArgumentError
  ∧ decode_fn [ ("input", Feature_bytes_list [[104]]) ]
    = Raise InvalidArgumentError
  ∧ decode_fn [ ("turn", Feature_int64_list [0; 1]) ]
    = Raise InvalidArgumentError.
Proof. split_and!; reflexivity. Qed.

(** * Further properties *)

(** ** What the loop serializes, and how it fails *)

Lemma encode_utf8_outcome s :
  (encodable s = true ∧ ∃ b, encode_utf8 s = Ok b)
  ∨ (encodable s = false ∧ encode_utf8 s = Raise UnicodeEncodeError).
Proof.
  unfold encodable. induction s as [|c s IH]; cbn [encode_utf8 forallb].
  - left. eauto.
  - unfold utf8_encode_char.
    destruct (utf8_encodable c); cbn [negb andb];
      [|right; split; reflexivity].
    destruct IH as [[-> [b ->]]|[-> ->]].
    + left. split; [done|]. repeat case_match; cbn; eauto.
    + right. split; [done|]. repeat case_match; reflexivity.
Qed.

(** X1. Which exception the serialization of an example raises: the texts
    are encoded first, in the order [src], [tgt], [dialog_id], so a text
    with a lone surrogate gives [UnicodeEncodeError] whatever the turn;
    [ValueError] is raised exactly when the three texts encode and the
    turn does not fit 64 bits; no other exception occurs, and a record is
    produced in the remaining case. *)
Theorem serialize_example_outcome (e : TextToTextExample) :
  (serialize_example e = Raise UnicodeEncodeError ↔ texts_encodable e = false)
  ∧ (serialize_example e = Raise ValueError
     ↔ texts_encodable e = true ∧ in_int64 (turn e) = false)
  ∧ ((∃ r, serialize_example e = Ok r)
     ↔ texts_encodable e = true ∧ in_int64 (turn e) = true).
Proof.
  unfold serialize_example, tf_example, texts_encodable, _int64_feature.
  destruct (encode_utf8_outcome (src e)) as [[-> [i ->]]|[-> ->]];
    [|cbn; split_and!; split; (done || intros [? ?] || intros [? ?]); done].
  destruct (encode_utf8_outcome (tgt e)) as [[-> [v ->]]|[-> ->]];
    [|cbn; split_and!; split; (done || intros [? ?] || intros [? ?]); done].
  destruct (encode_utf8_outcome (dialog_id e)) as [[-> [d ->]]|[-> ->]];
    [|cbn; split_and!; split; (done || intros [? ?] || intros [? ?]); done].
  destruct (in_int64 (turn e)); cbn; split_and!; split;
    try done; try (intros [? ?]; done); eauto.
Qed.

Lemma Ok_inj {A} (a b : A) : Ok a = Ok b → a = b.
Proof. intros Heq. by injection Heq. Qed.

Lemma encode_utf8_inj s1 s2 b :
  encode_utf8 s1 = Ok b → encode_utf8 s2 = Ok b → s1 = s2.
Proof.
  intros H1%decode_encode_utf8 H2%decode_encode_utf8. congruence.
Qed.

Lemma decoded_inj i1 v1 d1 n1 i2 v2 d2 n2 :
  decoded i1 v1 d1 n1 = decoded i2 v2 d2 n2 →
  i1 = i2 ∧ v1 = v2 ∧ d1 = d2 ∧ n1 = n2.
Proof.
  intros Heq.
  pose proof (f_equal (.!! "input") Heq) as Hi.
  pose proof (f_equal (.!! "value") Heq) as Hv.
  pose proof (f_equal (.!! "dialog_id") Heq) as Hd.
  pose proof (f_equal (.!! "turn") Heq) as Hn.
  vm_compute in Hi, Hv, Hd, Hn.
  injection Hi as ->. injection Hv as ->. injection Hd as ->.
  injection Hn as ->. done.
Qed.



(** X3. Whatever [decode_fn] returns is complete and well shaped: the
    mapping has exactly the keys [input], [value], [dialog_id] and [turn];
    [turn] is a scalar holding one integer; each of the other three is a
    rank-1 sparse string tensor whose indices are [[0], ..., [n-1]] and
    whose dense shape is [[n]] for its [n] values. *)
Theorem decode_fn_shape (r : record) (m : gmap string Tensor) :
  decode_fn r = Ok m →
  dom m = ({["input"; "value"; "dialog_id"; "turn"]} : gset string)
  ∧ (∃ n, m !! "turn" = Some (DenseTensor [] (Int64Values [n])))
  ∧ (∀ k, k = "input" ∨ k = "value" ∨ k = "dialog_id" →
       ∃ l, m !! k
            = Some (SparseTensor ((λ i : nat, [Z.of_nat i]) <$> seq 0 (length l))
                      (StringValues l) [Z.of_nat (length l)])).
Proof.
  unfold decode_fn, parse_single_example, decode_schema.
  cbn [parse_features].
  destruct (ParseFromString r !! "input") as [[| | |]|];
    destruct (ParseFromString r !! "value") as [[| | |]|];
    destruct (ParseFromString r !! "dialog_id") as [[| | |]|];
    try discriminate;
    destruct (ParseFromString r !! "turn") as [[| | |[|n [|n' l]]]|];
    try discriminate;
    intros <-%Ok_inj;
    (split_and!;
     [ rewrite !dom_insert_L, dom_empty_L; set_solver
     | eexists; reflexivity
     | intros k [ -> | [ -> | -> ] ]; eexists; reflexivity ]).
Qed.

Lemma decode_fn_shape_witness :
  decode_fn r_missing
  = Ok (<["input" := sparse_of (StringValues [])]>
          (decoded [] [104; 101; 108; 108; 111] [100; 49] 0))
  ∧ dom (<["input" := sparse_of (StringValues [])]>
           (decoded [] [104; 101; 108; 108; 111] [100; 49] 0))
    = ({["input"; "value"; "dialog_id"; "turn"]} : gset string).
Proof.
  assert (decode_fn r_missing
          = Ok (<["input" := sparse_of (StringValues [])]>
                  (decoded [] [104; 101; 108; 108; 111] [100; 49] 0))) as H
    by (reflexivity).
  split; [exact H|].
  exact (proj1 (decode_fn_shape r_missing _ H)).
Defined.

(** ** The bytes of a text *)

Lemma utf8_encode_char_shape c b :
  utf8_encode_char c = Ok b →
  Forall (λ x, 0 ≤ x < 256) b ∧ (1 ≤ length b ≤ 4)%nat
  ∧ (c < 0x80 → b = [c]).
Proof.
  unfold utf8_encode_char.
  destruct (utf8_encodable c) eqn:Hc; [|discriminate].
  apply utf8_encodable_range in Hc. cbn [negb].
  pose proof (Z.mod_pos_bound c 64 ltac:(lia)).
  pose proof (Z.mod_pos_bound (c / 64) 64 ltac:(lia)).
  pose proof (Z.mod_pos_bound (c / 4096) 64 ltac:(lia)).
  assert (0 ≤ c / 64 ∧ 0 ≤ c / 4096 ∧ 0 ≤ c / 262144) as (? & ? & ?)
    by (split_and!; apply Z.div_pos; lia).
  destruct (Z.ltb_spec c 0x80); [intros <-%Ok_inj|].
  { split_and!; [repeat constructor; lia|cbn; lia..|done]. }
  destruct (Z.ltb_spec c 0x800); [intros <-%Ok_inj|].
  { assert (c / 64 < 32) by (apply Z.div_lt_upper_bound; lia).
    split_and!; [repeat constructor; lia|cbn; lia..]. }
  destruct (Z.ltb_spec c 0x10000); intros <-%Ok_inj.
  { assert (c / 4096 < 16) by (apply Z.div_lt_upper_bound; lia).
    split_and!; [repeat constructor; lia|cbn; lia..]. }
  assert (c / 262144 < 5) by (apply Z.div_lt_upper_bound; lia).
  split_and!; [repeat constructor; lia|cbn; lia..].
Qed.

Lemma encode_utf8_cons c s b :
  encode_utf8 (c :: s) = Ok b →
  ∃ bc bs, utf8_encode_char c = Ok bc ∧ encode_utf8 s = Ok bs ∧ b = bc ++ bs.
Proof.
  cbn [encode_utf8].
  destruct (utf8_encode_char c) as [bc|]; [|discriminate].
  destruct (encode_utf8 s) as [bs|]; [|discriminate].
  intros <-%Ok_inj. eauto.
Qed.

(** X4. The bytes that [encode] gives for a text, and so the bytes written
    under [input], [value] and [dialog_id]: every one is an octet, each
    code point takes between one and four of them, an ASCII text is
    written as it is, and the text can be read back from them. *)
Theorem encode_utf8_shape (s : pystr) (b : pybytes) :
  encode_utf8 s = Ok b →
  Forall (λ x, 0 ≤ x < 256) b
  ∧ (length s ≤ length b ≤ 4 * length s)%nat
  ∧ (Forall (λ c, c < 0x80) s → b = s)
  ∧ decode_utf8 b = Some s.
Proof.
  intros Hb.
  split; [|split; [|split; [|by apply decode_encode_utf8]]].
  - revert b Hb. induction s as [|c s IH]; intros b.
    + by intros <-%Ok_inj.
    + intros (bc & bs & Hc & Hs & ->)%encode_utf8_cons.
      apply Forall_app. split; [|by apply IH].
      by apply utf8_encode_char_shape in Hc as (? & _).
  - revert b Hb. induction s as [|c s IH]; intros b.
    + intros <-%Ok_inj. cbn. lia.
    + intros (bc & bs & Hc & Hs & ->)%encode_utf8_cons.
      apply utf8_encode_char_shape in Hc as (_ & ? & _).
      specialize (IH bs Hs). rewrite length_app. cbn [length]. lia.
  - revert b Hb. induction s as [|c s IH]; intros b.
    + by intros <-%Ok_inj.
    + intros (bc & bs & Hc & Hs & ->)%encode_utf8_cons Hall.
      apply Forall_cons in Hall as [Hlt Hall].
      apply utf8_encode_char_shape in Hc as (_ & _ & ->); [|done].
      by rewrite (IH bs Hs Hall).
Qed.

Lemma encode_utf8_shape_witness :
  encode_utf8 [104; 0x20AC] = Ok [104; 226; 130; 172]
  ∧ Forall (λ x, 0 ≤ x < 256) [104; 226; 130; 172]
  ∧ (length [104; 0x20AC] ≤ length [104; 226; 130; 172]
     ≤ 4 * length [104; 0x20AC])%nat
  ∧ (Forall (λ c, c < 0x80) [104; 0x20AC]
     → [104; 226; 130; 172] = [104; 0x20AC])
  ∧ decode_utf8 [104; 226; 130; 172] = Some [104; 0x20AC].
Proof.
  split; [reflexivity|].
  apply (encode_utf8_shape [104; 0x20AC] [104; 226; 130; 172]). reflexivity.
Defined.

(** ** Paths *)

Lemma rsplit_sep_append (p : string) :
  String.append (rsplit_sep p).1 (rsplit_sep p).2 = p.
Proof.
  induction p as [|c p IH]; [done|]. cbn [rsplit_sep].
  destruct (rsplit_sep p) as [h t]. cbn in IH.
  destruct h as [|a h].
  - change (t = p) in IH. subst t. by destruct (is_sep c).
  - change (String c (String.append (String a h) t) = String c p).
    by rewrite IH.
Qed.

Lemma rsplit_sep_tail (p : string) : has_sep (rsplit_sep p).2 = false.
Proof.
  induction p as [|c p IH]; [done|]. cbn [rsplit_sep].
  destruct (rsplit_sep p) as [h t]. cbn in IH.
  destruct h as [|a h]; [|done].
  destruct (is_sep c) eqn:Hc; cbn; [done|]. by rewrite Hc.
Qed.

(** How [split] sees the two parts that [rsplit_sep] makes. *)
Lemma split_sep_rsplit (p : string) :
  ∃ l, split_sep p = l ++ [(rsplit_sep p).2]
    ∧ (((rsplit_sep p).1 = EmptyString ∧ l = [])
       ∨ (l ≠ [] ∧ split_sep (rsplit_sep p).1 = l ++ [EmptyString])).
Proof.
  induction p as [|c p IH].
  - exists []. split; [done|]. by left.
  - destruct IH as (l & Hl & Hh). cbn [rsplit_sep split_sep].
    destruct (rsplit_sep p) as [h t]. cbn [fst snd] in *.
    destruct h as [|a h].
    + destruct Hh as [[_ ->]|[Hne Hnil]];
        [|destruct l as [|? [|? ?]]; done].
      rewrite Hl. destruct (is_sep c) eqn:Hc; cbn [fst snd app].
      * exists [EmptyString]. split; [done|]. right. split; [done|].
        cbn. by rewrite Hc.
      * exists []. split; [done|]. by left.
    + destruct Hh as [[? _]|[Hne Hsplit]]; [done|].
      rewrite Hl. cbn [fst snd].
      change (split_sep (String c (String a h)))
        with (if is_sep c then EmptyString :: split_sep (String a h)
              else match split_sep (String a h) with
                   | [] => [String c EmptyString]
                   | x :: y => String c x :: y
                   end).
      rewrite Hsplit. destruct (is_sep c).
      * exists (EmptyString :: l). split; [done|]. by right.
      * destruct l as [|x l]; [done|]. cbn [app].
        exists (String c x :: l). split; [done|]. by right.
Qed.

Lemma split_sep_ne (s : string) : split_sep s ≠ [].
Proof.
  destruct s as [|c s]; [done|]. cbn [split_sep].
  destruct (is_sep c); [done|]. by destruct (split_sep s).
Qed.

Lemma split_sep_rstrip (s : string) :
  ∃ k, split_sep s = split_sep (rstrip_sep s) ++ replicate k EmptyString.
Proof.
  induction s as [|c s IH].
  - exists 0%nat. done.
  - destruct IH as [k Hk]. cbn [rstrip_sep split_sep]. rewrite Hk.
    destruct (rstrip_sep s) as [|a r] eqn:Hr.
    + cbn [split_sep app]. destruct (is_sep c) eqn:Hc.
      * exists (S k). done.
      * exists k. cbn. by rewrite Hc.
    + change (split_sep (String c (String a r)))
        with (if is_sep c then EmptyString :: split_sep (String a r)
              else match split_sep (String a r) with
                   | [] => [String c EmptyString]
                   | x :: y => String c x :: y
                   end).
      exists k. destruct (is_sep c); [done|].
      pose proof (split_sep_ne (String a r)).
      by destruct (split_sep (String a r)).
Qed.

Lemma path_components_rstrip (s : string) :
  path_components (rstrip_sep s) = path_components s.
Proof.
  unfold path_components. destruct (split_sep_rstrip s) as [k ->].
  rewrite List.filter_app.
  assert (List.filter is_name (replicate k EmptyString) = []) as ->
    by (induction k; done).
  by rewrite app_nil_r.
Qed.

Lemma path_components_dirname (p : string) :
  path_components (dirname p) = path_components (rsplit_sep p).1.
Proof.
  unfold dirname. case_match; [|done]. apply path_components_rstrip.
Qed.

Lemma path_components_last (p : string) :
  path_components p
  = path_components (dirname p)
    ++ (if is_name (basename p) then [basename p] else []).
Proof.
  rewrite path_components_dirname. unfold basename, path_components.
  destruct (split_sep_rsplit p) as (l & -> & [[-> ->]|[_ ->]]);
    rewrite ?List.filter_app; cbn [List.filter split_sep is_name];
    cbn; by rewrite ?app_nil_r.
Qed.

(** X5. [dirname] and [basename] take the path apart at its last
    separator: the base name has no separator and ends the path, and the
    components of the path are those of the directory that [write_data]
    makes, followed by the base name when it is a name (so the file is
    opened directly inside that directory). *)
Theorem path_components_split (p : string) :
  (∃ head, p = String.append head (basename p))
  ∧ has_sep (basename p) = false
  ∧ path_components p
    = path_components (dirname p)
      ++ (if is_name (basename p) then [basename p] else []).
Proof.
  split_and!.
  - exists (rsplit_sep p).1. symmetry. apply rsplit_sep_append.
  - apply rsplit_sep_tail.
  - apply path_components_last.
Qed.

(** ** More on the local file system *)

Lemma mkdirs_keep rest : ∀ pre (fs : LocalFS) r fs',
  mkdirs pre rest fs = (r, fs') →
  ∀ k n, fs !! k = Some n → fs' !! k = Some n.
Proof.
  induction rest as [|c rest IH]; intros pre fs r fs'; cbn [mkdirs].
  - by intros [= _ <-].
  - destruct (fs !! (pre ++ [c])) as [[|rs]|] eqn:Hk.
    + apply IH.
    + by intros [= _ <-].
    + intros Hrun k n Hn. eapply IH; [exact Hrun|].
      rewrite lookup_insert_ne; [done|]. congruence.
Qed.

Lemma mkdirs_frame rest : ∀ pre (fs : LocalFS) r fs',
  mkdirs pre rest fs = (r, fs') →
  ∀ k, (length pre + length rest < length k)%nat → fs' !! k = fs !! k.
Proof.
  induction rest as [|c rest IH]; intros pre fs r fs'; cbn [mkdirs].
  - by intros [= _ <-].
  - cbn [length]. destruct (fs !! (pre ++ [c])) as [[|rs]|] eqn:Hk.
    + intros Hrun k Hlen. eapply IH; [exact Hrun|].
      rewrite length_app. cbn. lia.
    + by intros [= _ <-].
    + intros Hrun k Hlen. erewrite IH; [|exact Hrun|rewrite length_app; cbn; lia].
      rewrite lookup_insert_ne; [done|].
      intros <-. rewrite length_app in Hlen. cbn in Hlen. lia.
Qed.

Lemma mkdirs_Ok_dirs (rest pre : list string) (fs fs' : LocalFS) :
  mkdirs pre rest fs = (Ok (), fs') →
  ∀ q, q ≠ [] → q `prefix_of` rest → fs' !! (pre ++ q) = Some Dir.
Proof.
  intros Hrun. destruct (clear_path fs pre rest) eqn:Hclear.
  - destruct (mkdirs_spec _ _ _ Hclear) as (fs'' & Hrun' & Hdirs & _).
    rewrite Hrun in Hrun'. by injection Hrun' as <-.
  - destruct (mkdirs_blocked _ _ _ Hclear) as (fs'' & Hrun').
    rewrite Hrun in Hrun'. discriminate.
Qed.

Lemma local_open_Raise (p : string) (fs fs2 : LocalFS) (e : exn) :
  local_open p fs = (Raise e, fs2) → fs2 = fs.
Proof. unfold local_open. repeat case_match; congruence. Qed.

Lemma local_open_not_dir (p : string) (fs fs2 : LocalFS) :
  local_open p fs = (Ok (), fs2) → is_dir fs (path_components p) = false.
Proof. unfold local_open. repeat case_match; congruence. Qed.

Lemma write_data_local_closed_fs (loc : nat) (p : string) (sh : bool)
    (w : World LocalFS) xs fs1 e fs2 r w' :
  w_heap w !! loc = Some xs →
  local_makedirs (dirname p) (w_fs w) = (Ok (), fs1) →
  local_open p fs1 = (Raise e, fs2) →
  write_data loc p sh w = (r, w') →
  w_fs w' = fs1 ∧ w_log w' = w_log w.
Proof.
  intros Hxs Hmk Hopen. rewrite write_data_unfold.
  cbn [gfile_makedirs LocalFS_GFile]. rewrite Hmk.
  pose proof (local_open_Raise _ _ _ _ Hopen) as ->.
  destruct sh.
  - rewrite (write_body_shuffle _ _ _ xs) by done.
    erewrite write_body_closed; [|cbn; exact Hopen]. by intros [= _ <-].
  - erewrite write_body_closed; [|cbn; exact Hopen]. by intros [= _ <-].
Qed.

Lemma serialize_until_error_app pre e post rs err :
  serialize_example <$> pre = Ok <$> rs →
  serialize_example e = Raise err →
  serialize_until_error (pre ++ e :: post) = (rs, Some err).
Proof.
  revert rs. induction pre as [|a pre IH]; intros [|r rs] Hpre He;
    try discriminate; cbn [app serialize_until_error].
  - by rewrite He.
  - cbn in Hpre. injection Hpre as Ha Hpre.
    by rewrite Ha, (IH rs Hpre He).
Qed.

(** ** How [write_data] ends *)

(** X6. The first example that cannot be serialized stops the writer:
    when the list, in the order it is written, is [pre ++ e :: post] with
    the examples of [pre] serialized and [e] raising, [write_data] raises
    the exception of [e]; the file is left holding the records of [pre],
    in order, and nothing of [post]; and no log line is written. *)
Theorem write_data_stops_at_failure (w : World LocalFS) (examples : nat)
    (output_path : string) (shuffle : bool)
    (xs pre post : list TextToTextExample) (e : TextToTextExample)
    (rs : list record) (err : exn) (fs1 fs2 : LocalFS) :
  w_heap w !! examples = Some xs →
  local_makedirs (dirname output_path) (w_fs w) = (Ok (), fs1) →
  local_open output_path fs1 = (Ok (), fs2) →
  arranged shuffle xs (w_rng w) = pre ++ e :: post →
  serialize_example <$> pre = Ok <$> rs →
  serialize_example e = Raise err →
  ∃ w', write_data examples output_path shuffle w = (Raise err, w')
    ∧ read_records (w_fs w') output_path = Some rs
    ∧ w_log w' = w_log w.
Proof.
  intros Hxs Hmk Hopen Harr Hpre He.
  destruct (write_data_local examples output_path shuffle w xs fs1 fs2)
    as (w' & Hrun & Hfs & _ & Hlog); [done..|].
  rewrite Harr, (serialize_until_error_app pre e post rs err Hpre He)
    in Hrun, Hfs, Hlog.
  cbn in Hrun, Hfs, Hlog. exists w'.
  rewrite Hfs, read_records_insert, Hlog, app_nil_r. done.
Qed.

Lemma write_data_stops_at_failure_witness :
  ∃ w', write_data 0 "d/f" false (mkWorld ∅ [ex_hi; ex_far; ex_bye] (λ _, 0%nat))
        = (Raise ValueError, w')
    ∧ read_records (w_fs w') "d/f"
      = Some [SerializeToString
                (example_message [104; 105] [104; 101; 108; 108; 111]
                   [100; 49] 0)]
    ∧ w_log w' = [].
Proof.
  apply (write_data_stops_at_failure
           (mkWorld ∅ [ex_hi; ex_far; ex_bye] (λ _, 0%nat)) 0 "d/f" false
           [ex_hi; ex_far; ex_bye] [ex_hi] [ex_bye] ex_far
           [SerializeToString
              (example_message [104; 105] [104; 101; 108; 108; 111]
                 [100; 49] 0)]
           ValueError
           (local_makedirs (dirname "d/f") ∅).2
           (local_open "d/f" (local_makedirs (dirname "d/f") ∅).2).2);
    reflexivity.
Defined.

(** X7. The count in the log line is the number of records in the file:
    when [write_data] returns normally, with or without shuffling, it has
    appended exactly one log line, which names the base name of the path
    and gives the length of the list, and the file holds that many
    records. *)
Theorem write_data_log_count (w : World LocalFS) (examples : nat)
    (output_path : string) (shuffle : bool) (xs : list TextToTextExample)
    (fs1 fs2 : LocalFS) (w' : World LocalFS) :
  w_heap w !! examples = Some xs →
  local_makedirs (dirname output_path) (w_fs w) = (Ok (), fs1) →
  local_open output_path fs1 = (Ok (), fs2) →
  write_data examples output_path shuffle w = (Ok (), w') →
  ∃ rs, read_records (w_fs w') output_path = Some rs
    ∧ length rs = length xs
    ∧ w_log w' = w_log w ++
        [ {| log_msg := "Wrote %s with %d examples";
             log_args := [LogStr (basename output_path);
                          LogInt (Z.of_nat (length rs))] |} ].
Proof.
  intros Hxs Hmk Hopen Hrun.
  destruct (write_data_local examples output_path shuffle w xs fs1 fs2)
    as (w'' & Hrun' & Hfs & _ & Hlog); [done..|].
  rewrite Hrun in Hrun'. injection Hrun' as Hout <-.
  destruct (serialize_until_error (arranged shuffle xs (w_rng w)))
    as [rs [err|]] eqn:Hser; [discriminate|].
  apply serialize_until_error_None in Hser as [Heq _].
  cbn in Hfs, Hlog. exists rs.
  assert (length rs = length xs) as Hlen.
  { rewrite <- (length_fmap Ok rs), <- Heq, length_fmap.
    unfold arranged. destruct shuffle; [|done].
    by rewrite (shuffle_Permutation xs (w_rng w)). }
  rewrite Hfs, read_records_insert, Hlog, Hlen. done.
Qed.

Lemma write_data_log_count_witness :
  ∃ rs, read_records
          (w_fs (write_data 0 "d/f" true (mkWorld ∅ [ex_hi; ex_bye] (λ _, 0%nat))).2)
          "d/f" = Some rs
    ∧ length rs = 2%nat
    ∧ w_log (write_data 0 "d/f" true (mkWorld ∅ [ex_hi; ex_bye] (λ _, 0%nat))).2
      = [] ++ [ {| log_msg := "Wrote %s with %d examples";
                   log_args := [LogStr (basename "d/f");
                                LogInt (Z.of_nat (length rs))] |} ].
Proof.
  apply (write_data_log_count
           (mkWorld ∅ [ex_hi; ex_bye] (λ _, 0%nat)) 0 "d/f" true
           [ex_hi; ex_bye]
           (local_makedirs (dirname "d/f") ∅).2
           (local_open "d/f" (local_makedirs (dirname "d/f") ∅).2).2);
    reflexivity.
Defined.

Lemma is_dir_false_lookup (fs fs' : LocalFS) (k : list string) :
  fs' !! k = fs !! k → is_dir fs k = false → is_dir fs' k = false.
Proof. unfold is_dir. destruct k; [done|]. by intros ->. Qed.

(** The writer can be opened once the directory is made, for a path that
    ends in a name and does not name a directory. *)
Lemma local_open_after_makedirs (p : string) (fs fs1 : LocalFS) :
  is_name (basename p) = true →
  is_dir fs (path_components p) = false →
  local_makedirs (dirname p) fs = (Ok (), fs1) →
  local_open p fs1 = (Ok (), <[path_components p := File []]> fs1).
Proof.
  intros Hname Hnodir Hmk.
  pose proof (path_components_last p) as Hk. rewrite Hname in Hk.
  unfold local_makedirs in Hmk. unfold local_open.
  erewrite (is_dir_false_lookup fs fs1); [|..|exact Hnodir].
  2: { eapply mkdirs_frame; [exact Hmk|].
       rewrite Hk, length_app. cbn. lia. }
  rewrite Hk at 1. rewrite removelast_last.
  assert (is_dir fs1 (path_components (dirname p)) = true) as ->; [|done].
  destruct (decide (path_components (dirname p) = [])) as [->|Hne]; [done|].
  apply is_dir_lookup; [done|].
  by apply (mkdirs_Ok_dirs _ [] _ _ Hmk).
Qed.





(** X10. Writing again replaces the file: after a call with [shuffle]
    false that returned normally, the same call returns normally again
    and leaves the file system as the first call left it, the file holding
    the same records once (nothing is appended), with a second log
    line. *)
Theorem write_data_again (w : World LocalFS) (examples : nat)
    (output_path : string) (xs : list TextToTextExample)
    (fs1 fs2 : LocalFS) :
  w_heap w !! examples = Some xs →
  forallb writable xs = true →
  local_makedirs (dirname output_path) (w_fs w) = (Ok (), fs1) →
  local_open output_path fs1 = (Ok (), fs2) →
  ∃ w1 w2 rs,
    write_data examples output_path false w = (Ok (), w1)
    ∧ write_data examples output_path false w1 = (Ok (), w2)
    ∧ read_records (w_fs w1) output_path = Some rs
    ∧ serialize_example <$> xs = Ok <$> rs
    ∧ w_fs w2 = w_fs w1
    ∧ w_log w2 = w_log w ++ [wrote_record output_path (length xs);
                             wrote_record output_path (length xs)].
Proof.
  intros Hxs Hall Hmk Hopen.
  destruct (write_data_local examples output_path false w xs fs1 fs2)
    as (w1 & Hrun1 & Hfs1 & Hheap1 & Hlog1); [done..|].
  cbn [arranged] in *.
  destruct (serialize_until_error_writable xs Hall) as (rs & Heq & Hrs).
  rewrite Heq in Hrun1, Hfs1, Hlog1. cbn in Hrun1, Hfs1, Hlog1.
  pose proof (local_open_not_dir _ _ _ Hopen) as Hnodir.
  pose proof (local_open_Ok _ _ _ Hopen) as ->.
  set (k := path_components output_path) in *.
  assert (k ≠ []) as Hk by (by intros Hk; rewrite Hk in Hnodir).
  assert (is_dir fs1 (removelast k) = true) as Hparent.
  { revert Hopen. unfold local_open. fold k. rewrite Hnodir.
    by destruct (is_dir fs1 (removelast k)). }
  assert (∀ q, is_dir fs1 q = true → is_dir (w_fs w1) q = true) as Hdirs.
  { intros q Hq. destruct (decide (q = [])) as [->|Hne]; [done|].
    apply is_dir_lookup; [done|]. apply is_dir_lookup in Hq; [|done].
    rewrite Hfs1, !lookup_insert_ne; [done|..];
      intros <-; (apply is_dir_lookup in Hq; [congruence|done]). }
  assert (local_makedirs (dirname output_path) (w_fs w1) = (Ok (), w_fs w1))
    as Hmk2.
  { apply mkdirs_existing. intros q Hne Hq.
    apply is_dir_lookup; [done|]. apply Hdirs, is_dir_lookup; [done|].
    by apply (mkdirs_Ok_dirs _ [] _ _ Hmk). }
  assert (local_open output_path (w_fs w1)
          = (Ok (), <[k := File []]> (w_fs w1))) as Hopen2.
  { unfold local_open. fold k. rewrite (Hdirs _ Hparent).
    assert (is_dir (w_fs w1) k = false) as ->; [|done].
    unfold is_dir. destruct k; [done|].
    by rewrite Hfs1, lookup_insert_eq. }
  destruct (write_data_local examples output_path false w1 xs _ _
              ltac:(by rewrite Hheap1) Hmk2 Hopen2)
    as (w2 & Hrun2 & Hfs2 & _ & Hlog2).
  cbn [arranged] in *. rewrite Heq in Hrun2, Hfs2, Hlog2.
  cbn in Hrun2, Hfs2, Hlog2. fold k in Hfs2.
  exists w1, w2, rs. split_and!; try done.
  - rewrite Hfs1. unfold k. apply read_records_insert.
  - by rewrite Hfs2, Hfs1, !insert_insert_eq.
  - by rewrite Hlog2, Hlog1, <- (assoc_L (++)).
Qed.

Lemma write_data_again_witness :
  ∃ w1 w2 rs,
    write_data 0 "d/f" false (mkWorld ∅ [ex_hi] (λ _, 0%nat)) = (Ok (), w1)
    ∧ write_data 0 "d/f" false w1 = (Ok (), w2)
    ∧ read_records (w_fs w1) "d/f" = Some rs
    ∧ serialize_example <$> [ex_hi] = Ok <$> rs
    ∧ w_fs w2 = w_fs w1
    ∧ w_log w2 = [] ++ [wrote_record "d/f" 1; wrote_record "d/f" 1].
Proof.
  apply (write_data_again (mkWorld ∅ [ex_hi] (λ _, 0%nat)) 0 "d/f" [ex_hi]
           (local_makedirs (dirname "d/f") ∅).2
           (local_open "d/f" (local_makedirs (dirname "d/f") ∅).2).2);
    reflexivity.
Defined.

(** ** On any back end *)

Section any_back_end.
Context {FS : Type} `{!GFile FS}.

Lemma write_examples_memory (p : string) xs : ∀ (w : World FS),
  w_heap (write_examples p xs w).2 = w_heap w
  ∧ w_rng (write_examples p xs w).2 = w_rng w
  ∧ w_log (write_examples p xs w).2 = w_log w.
Proof.
  induction xs as [|e xs IH]; intros w; [done|].
  cbn [write_examples]. unfold mbind at 1, M_bind at 1.
  unfold write_example, mbind, M_bind, lift_result, lift_fs.
  destruct (serialize_example e) as [r|err]; [|done].
  destruct (record_writer_write p r (w_fs w)) as [[[]|err] f]; [|done].
  fold (@mbind (M FS) _). apply (IH (set_fs f w)).
Qed.

Lemma write_body_memory (examples : nat) (p : string) (w : World FS) :
  w_heap (write_body examples p false w).2 = w_heap w
  ∧ w_rng (write_body examples p false w).2 = w_rng w
  ∧ ∃ l, w_log (write_body examples p false w).2 = w_log w ++ l
      ∧ logged p (w_heap w) examples (write_body examples p false w).1 l.
Proof.
  assert (∀ (r : result ()) (w' : World FS),
    r ≠ Ok () → w_heap w' = w_heap w → w_rng w' = w_rng w →
    w_log w' = w_log w →
    w_heap w' = w_heap w ∧ w_rng w' = w_rng w
    ∧ ∃ l, w_log w' = w_log w ++ l ∧ logged p (w_heap w) examples r l)
    as Hfail.
  { intros r w' Hr Hh Hg Hl. split_and!; [done..|].
    exists []. rewrite app_nil_r. split; [done|]. by left. }
  unfold write_body, with_TFRecordWriter, mbind, M_bind, mret, M_ret, lift_fs.
  destruct (record_writer_open p (w_fs w)) as [[[]|err] f];
    [|by apply Hfail].
  unfold read_list, len. cbn [w_heap set_fs].
  destruct (w_heap w !! examples) as [xs|] eqn:Hxs.
  - fold (@mbind (M FS) _).
    pose proof (write_examples_memory p xs (set_fs f w)) as (Hh & Hg & Hl).
    destruct (write_examples p xs (set_fs f w)) as [[[]|err] w2];
      cbn [fst snd] in *.
    + rewrite Hh. cbn [w_heap set_fs]. rewrite Hxs.
      unfold logging_info.
      destruct (record_writer_close p (w_fs _)) as [[[]|err] f3];
        cbn; rewrite ?Hh, ?Hg, ?Hl; cbn.
      * split_and!; [done..|]. eexists. split; [done|]. right. eauto.
      * split_and!; [done..|]. eexists. split; [done|]. right. eauto.
    + cbn in Hh, Hg, Hl.
      destruct (record_writer_close p (w_fs w2)) as [[[]|err'] f3];
        apply Hfail; cbn; congruence.
  - cbn [w_fs set_fs].
    destruct (record_writer_close p f) as [[[]|err'] f3];
      apply Hfail; cbn; congruence.
Qed.

Lemma write_body_shuffled (examples : nat) (p : string) (w : World FS) xs :
  w_heap w !! examples = Some xs →
  write_body examples p true w =
  write_body examples p false
    (set_rng (shuffle xs (w_rng w)).2
       (set_heap (<[examples := (shuffle xs (w_rng w)).1]> (w_heap w)) w)).
Proof.
  intros Hxs. unfold write_body at 1, random_shuffle.
  unfold mbind at 1, M_bind at 1. rewrite Hxs.
  by destruct (shuffle xs (w_rng w)).
Qed.

Lemma write_body_log (examples : nat) (p : string) (sh : bool) (w : World FS) :
  ∃ l, w_log (write_body examples p sh w).2 = w_log w ++ l
    ∧ logged p (w_heap w) examples (write_body examples p sh w).1 l.
Proof.
  destruct sh; [|apply write_body_memory].
  destruct (w_heap w !! examples) as [xs|] eqn:Hxs.
  - rewrite (write_body_shuffled _ _ _ xs) by done.
    match goal with |- context [write_body _ _ false ?w1] =>
      pose proof (write_body_memory examples p w1)
        as (_ & _ & l & Hlog & Hl')
    end.
    exists l. split; [exact Hlog|].
    destruct Hl' as [?|(ys & Hys & ->)]; [by left|].
    right. exists xs. split; [done|].
    cbn in Hys. rewrite lookup_insert_eq in Hys. injection Hys as <-.
    by rewrite (shuffle_Permutation xs (w_rng w)).
  - exists []. rewrite app_nil_r.
    unfold write_body, random_shuffle, mbind, M_bind. rewrite Hxs.
    split; [done|]. by left.
Qed.

(** X11. With [shuffle] false [write_data] leaves the heap and the random
    generator as they were, on every back end and however it ends: no list
    object is changed and no draw is made. With either flag it writes at
    most one log line, the line with the length of the list, and it has
    written that line whenever it returns normally. *)
Theorem write_data_memory (examples : nat) (output_path : string)
    (w : World FS) :
  w_heap (write_data examples output_path false w).2 = w_heap w
  ∧ w_rng (write_data examples output_path false w).2 = w_rng w
  ∧ ∀ shuffle, ∃ l,
      w_log (write_data examples output_path shuffle w).2 = w_log w ++ l
      ∧ ((l = [] ∧ (write_data examples output_path shuffle w).1 ≠ Ok ())
         ∨ ∃ xs, w_heap w !! examples = Some xs
             ∧ l = [wrote_record output_path (length xs)]).
Proof.
  split_and!; [..|intros sh]; rewrite write_data_unfold;
    destruct (gfile_makedirs (dirname output_path) (w_fs w))
      as [[[]|err] f]; try done.
  - apply (write_body_memory examples output_path (set_fs f w)).
  - apply (write_body_memory examples output_path (set_fs f w)).
  - apply (write_body_log examples output_path sh (set_fs f w)).
  - exists []. rewrite app_nil_r. split; [done|]. by left.
Qed.

(** X12. A list of at most one example is written the same way with and
    without [shuffle]: shuffling it draws nothing and moves nothing, so
    the two calls give the same result and leave the same world, on every
    back end. *)
Theorem write_data_short_list (examples : nat) (output_path : string)
    (w : World FS) (xs : list TextToTextExample) :
  w_heap w !! examples = Some xs →
  (length xs ≤ 1)%nat →
  write_data examples output_path true w
  = write_data examples output_path false w.
Proof.
  intros Hxs Hlen. rewrite !write_data_unfold.
  destruct (gfile_makedirs (dirname output_path) (w_fs w))
    as [[[]|err] f]; [|done].
  rewrite (write_body_shuffled _ _ _ xs) by done.
  cbn [w_heap w_rng set_fs].
  assert (shuffle xs (w_rng w) = (xs, w_rng w)) as ->.
  { unfold shuffle. by destruct xs as [|a [|b xs]]; [..|cbn in Hlen; lia]. }
  cbn [fst snd]. rewrite insert_id by done. reflexivity.
Qed.
End any_back_end.

Lemma write_data_short_list_witness :
  w_heap (mkWorld ∅ [ex_hi] (λ _, 0%nat)) !! 0%nat = Some [ex_hi]
  ∧ (length [ex_hi] ≤ 1)%nat
  ∧ write_data 0 "d/f" true (mkWorld ∅ [ex_hi] (λ _, 0%nat))
    = write_data 0 "d/f" false (mkWorld ∅ [ex_hi] (λ _, 0%nat)).
Proof.
  split; [reflexivity|]. split; [cbn; lia|].
  apply (write_data_short_list 0 "d/f" (mkWorld ∅ [ex_hi] (λ _, 0%nat))
           [ex_hi]); [reflexivity|cbn; lia].
Defined.

(** ** The calls to the file system *)

Section calls.
Context {FS : Type} `{!GFile FS}.

Lemma write_examples_calls (p : string) xs :
  ∀ (w : World (Traced FS)) (r : result ()) (w' : World (Traced FS)),
  @write_examples (Traced FS) Traced_GFile p xs w = (r, w') →
  ∃ rs, rs `prefix_of` (serialize_until_error xs).1
    ∧ calls (w_fs w') = calls (w_fs w) ++ (WriterWrite p <$> rs)
    ∧ w_heap w' = w_heap w
    ∧ (r = Ok () →
       rs = (serialize_until_error xs).1
       ∧ (serialize_until_error xs).2 = None).
Proof.
  induction xs as [|e xs IH]; intros w r w'.
  - intros [= <- <-]. exists []. cbn. by rewrite app_nil_r.
  - cbn [write_examples serialize_until_error].
    unfold mbind at 1, M_bind at 1.
    unfold write_example, mbind, M_bind, lift_result, lift_fs.
    destruct (serialize_example e) as [rec|err].
    + cbn [record_writer_write Traced_GFile]. unfold traced.
      destruct (record_writer_write p rec (base (w_fs w))) as [[[]|err] f].
      * fold (@mbind (M (Traced FS)) _).
        intros (rs & Hpre & Hcalls & Hheap & Hok)%IH.
        destruct (serialize_until_error xs) as [rs0 o]. cbn [fst snd] in *.
        exists (rec :: rs). split_and!.
        -- by apply prefix_cons.
        -- rewrite Hcalls. cbn. by rewrite <- (assoc_L (++)).
        -- by rewrite Hheap.
        -- intros [-> ->]%Hok. done.
      * intros [= <- <-]. exists [rec].
        destruct (serialize_until_error xs) as [rs0 o].
        cbn. split_and!; [|done..].
        apply prefix_cons, prefix_nil.
    + intros [= <- <-]. exists []. cbn. rewrite app_nil_r.
      split_and!; [|done..]. apply prefix_nil.
Qed.

End calls.


(** ** The order of the entries *)

(** X14. Decoding does not depend on the order in which the library lays
    out the four entries of a written record: every rearrangement of the
    record that [write_data] serializes for an example decodes to the same
    mapping. *)
Theorem decode_fn_any_order (e : TextToTextExample) (r r' : record) :
  serialize_example e = Ok r →
  r' ≡ₚ r →
  decode_fn r' = decode_fn r ∧ decode_fn r' = decoded_example e.
Proof.
  intros Hr Hperm.
  assert (decode_fn r' = decode_fn r) as Heq.
  { unfold decode_fn, parse_single_example. f_equal.
    apply serialize_example_Ok in Hr as (ex & _ & ->).
    unfold ParseFromString. apply list_to_map_proper.
    - rewrite fmap_reverse, reverse_Permutation, Hperm.
      apply NoDup_fst_map_to_list.
    - by rewrite !reverse_Permutation. }
  split; [done|]. rewrite Heq. by apply decode_serialized.
Qed.

Lemma decode_fn_any_order_witness :
  decode_fn [ ("turn", Feature_int64_list [0]);
              ("dialog_id", Feature_bytes_list [[100; 49]]);
              ("value", Feature_bytes_list [[104; 101; 108; 108; 111]]);
              ("input", Feature_bytes_list [[104; 105]]) ]
  = decoded_example ex_hi.
Proof.
  refine (proj2 (decode_fn_any_order ex_hi
                   (SerializeToString
                      (example_message [104; 105] [104; 101; 108; 108; 111]
                         [100; 49] 0))
                   _ eq_refl _)).
  rewrite serialize_example_entries.
  apply (reverse_Permutation
           [ ("input", Feature_bytes_list [[104; 105]]);
             ("value", Feature_bytes_list [[104; 101; 108; 108; 111]]);
             ("dialog_id", Feature_bytes_list [[100; 49]]);
             ("turn", Feature_int64_list [0]) ]).
Defined.
